(** * The Moravec response of [skimage.feature.interest_cy]

    A shallow embedding of [moravec] (skimage/feature/interest_cy.pyx)
    and the properties of its response map.

    The function has a Python part (argument conversion, the calls to
    [rgb2grey], [img_as_float], [np.zeros_like], the typed buffers) and a C
    part (six nested loops over raw [double*] pointers with [int] index
    arithmetic and no bounds check).  Both are modelled as written:
    - a [double] is a binary64 [float] of the kernel, so that sums, squares
      and comparisons round and overflow as they do in C;
    - a C [int] is an integer between [INT_MIN] and [INT_MAX]; arithmetic
      that leaves the range has no defined result;
    - arrays live in a heap and are passed by reference; a read or write
      through a raw pointer outside of its buffer has no defined result. *)

From Stdlib Require Import ZArith Lia Floats.
From stdpp Require Import base option list.

Local Open Scope Z_scope.

(** ** C scalars *)

Module C.

Definition INT_MAX : Z := 2147483647.
Definition INT_MIN : Z := -2147483648.

Definition in_int (z : Z) : bool := (INT_MIN <=? z) && (z <=? INT_MAX).

(** The value of an [int] expression; [None] when a signed overflow
    occurred while computing it. *)
Definition int : Type := option Z.

Definition chk (z : Z) : int := if in_int z then Some z else None.

Definition val (z : Z) : int := Some z.

Definition add (x y : int) : int :=
  match x, y with Some a, Some b => chk (a + b) | _, _ => None end.
Definition sub (x y : int) : int :=
  match x, y with Some a, Some b => chk (a - b) | _, _ => None end.
Definition mul (x y : int) : int :=
  match x, y with Some a, Some b => chk (a * b) | _, _ => None end.
Definition neg (x : int) : int :=
  match x with Some a => chk (- a) | None => None end.

(** [DBL_MAX] of <float.h>: the largest finite double. *)
Definition DBL_MAX : float := 0x1.fffffffffffffp+1023%float.

(** [x ** 2] on a double: the product of [x] with itself. *)
Definition sqr (x : float) : float := (x * x)%float.

(** [min(a, b)] on two doubles, as Cython expands it: the second
    argument when it is smaller than the first, the first otherwise. *)
Definition min (a b : float) : float := if (b <? a)%float then b else a.

End C.

Coercion C.val : Z >-> C.int.

Arguments C.chk : simpl never.
Arguments C.val : simpl never.
Arguments C.add : simpl never.
Arguments C.sub : simpl never.
Arguments C.mul : simpl never.
Arguments C.neg : simpl never.
Arguments C.sqr : simpl never.
Arguments C.min : simpl never.

Declare Scope cint_scope.
Delimit Scope cint_scope with cint.
Bind Scope cint_scope with C.int.
Notation "x + y" := (C.add x y) : cint_scope.
Notation "x - y" := (C.sub x y) : cint_scope.
Notation "x * y" := (C.mul x y) : cint_scope.
Notation "- x" := (C.neg x) : cint_scope.

(** ** Arrays and the heap *)

(** A C-contiguous [float64] array: its shape and its buffer in row-major
    order. *)
Record ndarray : Type := { shape : list Z; data : list float }.

Definition ndim (arr : ndarray) : nat := length (shape arr).

Abbreviation loc := nat.
Abbreviation heap := (list ndarray).

(** [np.zeros_like(arr)] *)
Definition zeros_like (arr : ndarray) : ndarray :=
  {| shape := shape arr; data := replicate (length (data arr)) 0%float |}.

(** [p[i]] for a raw pointer [p] to the buffer of the array at [p]. *)
Definition load (h : heap) (p : loc) (i : C.int) : option float :=
  i ← i; arr ← h !! p;
  if bool_decide (0 <= i) then data arr !! Z.to_nat i else None.

(** [p[i] = x] *)
Definition store (h : heap) (p : loc) (i : C.int) (x : float) : option heap :=
  i ← i; arr ← h !! p;
  if bool_decide (0 <= i < Z.of_nat (length (data arr)))
  then Some (<[p := {| shape := shape arr; data := <[Z.to_nat i := x]> (data arr) |}]> h)
  else None.

(** ** Loops *)

(** [range(lo, hi)] *)
Definition range (lo hi : Z) : list Z := seqZ lo (hi - lo).

(** [for i in l: s = body(i, s)], stopping at the first undefined step. *)
Fixpoint for_in {S : Type} (l : list Z) (body : Z → S → option S) (s : S) : option S :=
  match l with
  | [] => Some s
  | i :: l' => s' ← body i s; for_in l' body s'
  end.

(** ** The C part of [moravec] *)

Section Loops.

Variables (image_data out_data : loc) (rows cols block_size : Z).

(** Lines 75-80: the sum of squared differences between the window at
    [(r, c)] and the window at [(br, bc)]. *)
Definition msum_loop (h : heap) (r c br bc : Z) : option float :=
  lo ← (- block_size)%cint; hi ← (block_size + 1)%cint;
  for_in (range lo hi) (λ mr msum,
    lo ← (- block_size)%cint; hi ← (block_size + 1)%cint;
    for_in (range lo hi) (λ mc msum,
      let a := ((r + mr) * cols + c + mc)%cint in
      let b := ((br + mr) * cols + bc + mc)%cint in
      x ← load h image_data a; y ← load h image_data b;
      Some (msum + C.sqr (x - y))%float) msum) 0%float.

(** Lines 71-81: the running minimum over the shifted windows. *)
Definition min_msum_loop (h : heap) (r c : Z) : option float :=
  lo ← (r - block_size)%cint; hi ← (r + block_size + 1)%cint;
  for_in (range lo hi) (λ br min_msum,
    lo ← (c - block_size)%cint; hi ← (c + block_size + 1)%cint;
    for_in (range lo hi) (λ bc min_msum,
      if bool_decide (br ≠ r ∧ bc ≠ c) then
        msum ← msum_loop h r c br bc;
        Some (C.min msum min_msum)
      else Some min_msum) min_msum) C.DBL_MAX.

(** Lines 69-83. *)
Definition moravec_loops (h : heap) : option heap :=
  lo ← (2 * block_size)%cint; hi ← (rows - 2 * block_size)%cint;
  for_in (range lo hi) (λ r h,
    lo ← (2 * block_size)%cint; hi ← (cols - 2 * block_size)%cint;
    for_in (range lo hi) (λ c h,
      min_msum ← min_msum_loop h r c;
      store h out_data (r * cols + c)%cint min_msum) h) h.

End Loops.

(** ** The Python part of [moravec] *)

Inductive exn : Type := OverflowError | IndexError | ValueError | TypeError.

Inductive result (A : Type) : Type :=
  | Ok (a : A) (h : heap)
  | Raise (e : exn) (h : heap)
  | Undefined.
Arguments Ok {A} a h.
Arguments Raise {A} e h.
Arguments Undefined {A}.

Definition M (A : Type) : Type := heap → result A.

Definition ret {A} (a : A) : M A := λ h, Ok a h.
Definition raise {A} (e : exn) : M A := λ h, Raise e h.
Definition bind {A B} (m : M A) (k : A → M B) : M B :=
  λ h, match m h with
       | Ok a h' => k a h'
       | Raise e h' => Raise e h'
       | Undefined => Undefined
       end.

Notation "x <- m ;; k" := (bind m (λ x, k))
  (at level 100, m at next level, right associativity).
Notation "m ;; k" := (bind m (λ _, k))
  (at level 100, right associativity).

(** The array an object reference points to. *)
Definition deref (p : loc) : M ndarray :=
  λ h, match h !! p with Some arr => Ok arr h | None => Undefined end.

(** A new array object. *)
Definition alloc (arr : ndarray) : M loc := λ h, Ok (length h) (h ++ [arr]).

(** Conversion of a Python integer to a C [int]. *)
Definition as_int (z : Z) : M Z :=
  if C.in_int z then ret z else raise OverflowError.

(** [arr.shape[i]] for a constant [i]: the module is compiled with
    [boundscheck=False] (line 2), so the item is read from the tuple
    without a check, and a read past its end has no defined result. *)
Definition shape_item (arr : ndarray) (i : nat) : M Z :=
  match shape arr !! i with Some d => ret d | None => λ _, Undefined end.

(** Assignment to a variable declared
    [cnp.ndarray[dtype=cnp.double_t, ndim=2, mode='c']]: the buffer is
    acquired, which fails unless the array has two dimensions. *)
Definition acquire_2d (p : loc) : M unit :=
  arr <- deref p ;;
  if bool_decide (ndim arr = 2%nat) then ret tt else raise ValueError.

(** Modelled from the spec: [img_as_float] of [skimage.util], whose code
    is not among the sources.  It converts the pixel values to the
    canonical floating-point representation; the arrays of this model
    hold doubles already, and such an array is handed back as it is (the
    same object).  [np.ascontiguousarray] hands back a C-contiguous array
    likewise. *)
Definition img_as_float (image : loc) : M loc := ret image.
Definition ascontiguousarray (p : loc) : M loc := ret p.

(** The C part, run on the heap. *)
Definition run_loops (cimage out : loc) (rows cols block_size : Z) : M unit :=
  λ h, match moravec_loops cimage out rows cols block_size h with
       | Some h' => Ok tt h'
       | None => Undefined
       end.

Section Moravec.

(** [rgb2grey] of [skimage.color], whose code is not among the sources,
    is a parameter: it takes an array to a new array or to an
    exception. *)
Variable rgb2grey : ndarray → exn + ndarray.

Definition call_rgb2grey (image : loc) : M loc :=
  arr <- deref image ;;
  match rgb2grey arr with
  | inr grey => alloc grey
  | inl e => raise e
  end.

Definition moravec (image : loc) (block_size : Z) : M loc :=
  block_size <- as_int block_size ;;
  arr <- deref image ;;
  rows <- (d <- shape_item arr 0 ;; as_int d) ;;
  cols <- (d <- shape_item arr 1 ;; as_int d) ;;
  (if bool_decide (ndim arr = 3%nat)
   then (cimage <- call_rgb2grey image ;; acquire_2d cimage)
   else ret tt) ;;
  cimage <- (f <- img_as_float image ;; ascontiguousarray f) ;;
  acquire_2d cimage ;;
  out <- (z <- deref image ;; alloc (zeros_like z)) ;;
  acquire_2d out ;;
  run_loops cimage out rows cols block_size ;;
  ret out.

End Moravec.

(** The heap a call leaves behind when it returns or raises. *)
Definition final_heap {A} (res : result A) : option heap :=
  match res with
  | Ok _ h | Raise _ h => Some h
  | Undefined => None
  end.

(** ** The response map in the words of the specification *)

Definition rows_of (arr : ndarray) : Z := default 0 (shape arr !! 0%nat).
Definition cols_of (arr : ndarray) : Z := default 0 (shape arr !! 1%nat).

(** [arr[r][c]] of a two-dimensional array; [None] outside of it. *)
Definition at2 (arr : ndarray) (r c : Z) : option float :=
  if bool_decide (0 ≤ r < rows_of arr ∧ 0 ≤ c < cols_of arr)
  then data arr !! Z.to_nat (r * cols_of arr + c)
  else None.

Definition px (arr : ndarray) (r c : Z) : float := default 0%float (at2 arr r c).

(** The interior range [2b, rows - 2b) x [2b, cols - 2b). *)
Definition interior (rows cols b r c : Z) : Prop :=
  2 * b ≤ r < rows - 2 * b ∧ 2 * b ≤ c < cols - 2 * b.

(** The window offsets [-b, b] x [-b, b], row by row. *)
Definition window (b : Z) : list (Z * Z) :=
  mr ← range (- b) (b + 1); mc ← range (- b) (b + 1); [(mr, mc)].

(** The sum of squared differences of the window at [(r, c)] and the
    window at [shift], accumulated in double precision from zero. *)
Definition SSD (image : ndarray) (b r c : Z) (shift : Z * Z) : float :=
  foldl (λ s off,
          s + C.sqr (px image (r + off.1) (c + off.2)
                     - px image (shift.1 + off.1) (shift.2 + off.2)))%float
        0%float (window b).

(** The candidate shifts of [(r, c)]: those of [r-b, r+b] x [c-b, c+b]
    that differ from the centre in the row and in the column. *)
Definition candidates (b r c : Z) : list (Z * Z) :=
  filter (λ s, s.1 ≠ r ∧ s.2 ≠ c)
         (br ← range (r - b) (r + b + 1); bc ← range (c - b) (c + b + 1); [(br, bc)]).

(** [m] is a minimum of the values of [l]. *)
Definition is_min (m : float) (l : list float) : Prop :=
  m ∈ l ∧ ∀ x, x ∈ l → (m <=? x)%float = true.

(** The value the loops leave in the cell [(r, c)] of the interior. *)
Definition response (image : ndarray) (b r c : Z) : float :=
  foldl (λ min_msum s, C.min (SSD image b r c s) min_msum) C.DBL_MAX (candidates b r c).

(** The heap while the loops run on [h]: only the buffer of [out] has
    changed, and in it the cells that satisfy [done], which hold the
    response. *)
Definition progress_of (h : heap) (out : loc) (o arr : ndarray) (rows cols b : Z)
    (done : Z → Z → Prop) `{!∀ r c, Decision (done r c)} (hc : heap) : Prop :=
  ∃ d, hc = <[out := {| shape := shape o; data := d |}]> h ∧
       length d = length (data o) ∧
       ∀ r c, 0 ≤ r < rows → 0 ≤ c < cols →
         d !! Z.to_nat (r * cols + c) =
           if bool_decide (done r c) then Some (response arr b r c)
           else data o !! Z.to_nat (r * cols + c).

(** A two-dimensional image of [rows] x [cols] doubles. *)
Definition image2d (arr : ndarray) (rows cols : Z) : Prop :=
  shape arr = [rows; cols] ∧ Z.of_nat (length (data arr)) = rows * cols.

(** The sizes for which the [int] arithmetic of the loops stays within
    [INT_MIN .. INT_MAX]. *)
Definition fits_int (rows cols b : Z) : Prop :=
  0 ≤ rows ≤ C.INT_MAX ∧ 0 ≤ cols ≤ C.INT_MAX ∧
  rows * cols ≤ C.INT_MAX ∧ 2 * b ≤ C.INT_MAX.

(** Every intensity is finite (neither an infinity nor a NaN). *)
Definition finite_image (arr : ndarray) : bool := forallb is_finite (data arr).

(** Every intensity is zero ([0.0] or [-0.0]). *)
Definition zero_image (arr : ndarray) : bool := forallb is_zero (data arr).

(** Classes of binary64 values, on their specification. *)
Definition sf_signed (s : bool) (x : spec_float) : bool :=
  match x with
  | S754_zero s' | S754_infinity s' | S754_finite s' _ _ => bool_decide (s' = s)
  | S754_nan => false
  end.

Definition sf_not_nan (x : spec_float) : bool :=
  match x with S754_nan => false | _ => true end.

Definition sf_finite (x : spec_float) : bool :=
  match x with S754_zero _ | S754_finite _ _ _ => true | _ => false end.

Definition sf_nonneg (x : spec_float) : bool :=
  match x with
  | S754_zero _ | S754_infinity false | S754_finite false _ _ => true
  | _ => false
  end.

(** ** Concrete images *)

(** The reference case of the docstring. *)
Definition square : ndarray :=
  {| shape := [7; 7];
     data := <[24%nat := 1%float]> (replicate 49 0%float) |}.

(** The response the docstring gives for it. *)
Definition square_response : ndarray :=
  {| shape := [7; 7];
     data := [0; 0; 0; 0; 0; 0; 0;
              0; 0; 0; 0; 0; 0; 0;
              0; 0; 1; 1; 1; 0; 0;
              0; 0; 1; 2; 1; 0; 0;
              0; 0; 1; 1; 1; 0; 0;
              0; 0; 0; 0; 0; 0; 0;
              0; 0; 0; 0; 0; 0; 0]%float |}.

(** A 5 x 5 image with one large finite intensity in the centre. *)
Definition spike : ndarray :=
  {| shape := [5; 5];
     data := <[12%nat := 0x1p+600%float]> (replicate 25 0%float) |}.

Definition pixel : ndarray := {| shape := [1; 1]; data := [0%float] |}.

Definition blank : ndarray := {| shape := [5; 5]; data := replicate 25 0%float |}.

Definition rgb_pixel : ndarray :=
  {| shape := [1; 1; 3]; data := [0%float; 0%float; 0%float] |}.

(** Every intensity is the same. *)
Definition uniform_image (arr : ndarray) : bool :=
  match data arr with
  | [] => true
  | v :: l => forallb (PrimFloat.Leibniz.eqb v) l
  end.

(** [square] with another one in the last corner. *)
Definition square_marked : ndarray :=
  {| shape := [7; 7];
     data := <[48%nat := 1%float]> (<[24%nat := 1%float]> (replicate 49 0%float)) |}.

(** A 5 x 5 image with a line of ones along the diagonal. *)
Definition diagonal : ndarray :=
  {| shape := [5; 5];
     data := [1; 0; 0; 0; 0;
              0; 1; 0; 0; 0;
              0; 0; 1; 0; 0;
              0; 0; 0; 1; 0;
              0; 0; 0; 0; 1]%float |}.

(** Another stand-in for [rgb2grey], which always raises. *)
Definition no_grey : ndarray → exn + ndarray := λ _, inl TypeError.

(** The rows and columns 1 to 5 of [square]. *)
Definition square_crop : ndarray :=
  {| shape := [5; 5];
     data := <[12%nat := 1%float]> (replicate 25 0%float) |}.

(** A 5 x 5 image of one intensity. *)
Definition grey_wall : ndarray :=
  {| shape := [5; 5]; data := replicate 25 0.5%float |}.

(** [np.zeros(3)], [np.zeros((1, 1, 1, 1))] and [np.zeros((2 ** 31, 0))]. *)
Definition line : ndarray := {| shape := [3]; data := replicate 3 0%float |}.
Definition hypercube : ndarray := {| shape := [1; 1; 1; 1]; data := [0%float] |}.
Definition tall_empty : ndarray := {| shape := [2 ^ 31; 0]; data := [] |}.

(** A stand-in for [rgb2grey]: the first channel. *)
Definition first_channel (arr : ndarray) : exn + ndarray :=
  match shape arr with
  | [rows; cols; chans] =>
      inr {| shape := [rows; cols];
             data := (λ i, default 0%float (data arr !! (i * Z.to_nat chans)%nat))
                       <$> seq 0 (Z.to_nat (rows * cols)) |}
  | _ => inl ValueError
  end.

(** * Properties *)

(** ** Binary64 arithmetic

    The operations of [float] are specified by [SpecFloat]; the facts
    below are those the response map rests on: the difference of two
    finite doubles is not a NaN, a square and a sum of non-negative
    doubles are non-negative (possibly [+infinity]), and the comparison is
    a total preorder away from NaN. *)

Section Rounding.
Variables prec emax : Z.

Lemma shr_1_nonneg mrs : 0 ≤ shr_m mrs → 0 ≤ shr_m (shr_1 mrs).
Proof. destruct mrs as [[|[p|p|]|p] r s]; simpl; lia. Qed.

Lemma iter_pos_nonneg n mrs :
  0 ≤ shr_m mrs → 0 ≤ shr_m (SpecFloat.iter_pos shr_1 n mrs).
Proof.
  revert mrs. induction n as [n IH|n IH|]; intros mrs Hm; simpl;
    auto using shr_1_nonneg.
Qed.

Lemma shr_nonneg mrs e n : 0 ≤ shr_m mrs → 0 ≤ shr_m (shr mrs e n).1.
Proof. destruct n; simpl; auto using iter_pos_nonneg. Qed.

Lemma shr_fexp_nonneg m e l : 0 ≤ m → 0 ≤ shr_m (shr_fexp prec emax m e l).1.
Proof.
  intros Hm. unfold shr_fexp. apply shr_nonneg.
  by destruct l as [|[]].
Qed.

Lemma round_nearest_even_nonneg m l : 0 ≤ m → 0 ≤ round_nearest_even m l.
Proof.
  intros Hm. destruct l as [|[]]; simpl; try lia.
  destruct (Z.even m); lia.
Qed.

Lemma binary_round_aux_signed sx mx ex lx :
  0 ≤ mx → sf_signed sx (binary_round_aux prec emax sx mx ex lx) = true.
Proof.
  intros Hm. unfold binary_round_aux.
  pose proof (shr_fexp_nonneg mx ex lx Hm) as H1.
  destruct (shr_fexp prec emax mx ex lx) as [mrs' e']; simpl in H1.
  pose proof (shr_fexp_nonneg _ e' loc_Exact
    (round_nearest_even_nonneg _ (loc_of_shr_record mrs') H1)) as H2.
  destruct (shr_fexp prec emax _ e' loc_Exact) as [mrs'' e'']; simpl in H2.
  destruct (shr_m mrs''); [| |lia]; simpl.
  - by apply bool_decide_eq_true.
  - destruct (_ <=? _); by apply bool_decide_eq_true.
Qed.

Lemma binary_round_signed sx mx ex :
  sf_signed sx (binary_round prec emax sx mx ex) = true.
Proof.
  unfold binary_round. destruct (shl_align _ _ _) as [mz ez].
  by apply binary_round_aux_signed.
Qed.

Lemma binary_normalize_not_nan m e szero :
  sf_not_nan (binary_normalize prec emax m e szero) = true.
Proof.
  destruct m as [|p|p]; simpl; [done|..].
  - pose proof (binary_round_signed false p e) as H.
    by destruct (binary_round _ _ _ _ _).
  - pose proof (binary_round_signed true p e) as H.
    by destruct (binary_round _ _ _ _ _).
Qed.

Lemma SFsub_finite x y :
  sf_finite x = true → sf_finite y = true →
  sf_not_nan (SFsub prec emax x y) = true.
Proof.
  destruct x as [sx|sx| |sx mx ex], y as [sy|sy| |sy my ey]; try done; intros _ _.
  - by destruct sx, sy.
  - apply binary_normalize_not_nan.
Qed.

Lemma SFmul_square x :
  sf_not_nan x = true → sf_nonneg (SFmul prec emax x x) = true.
Proof.
  destruct x as [sx|sx| |sx mx ex]; try done; intros _; simpl.
  - by destruct sx.
  - pose proof (binary_round_aux_signed (xorb sx sx) (Z.pos (mx * mx))
      (ex + ex) loc_Exact ltac:(lia)) as H.
    rewrite Bool.xorb_nilpotent in H |- *.
    destruct (binary_round_aux _ _ _ _ _ _) as [[]|[]| |[]]; done.
Qed.

Lemma SFadd_nonneg x y :
  sf_nonneg x = true → sf_nonneg y = true →
  sf_nonneg (SFadd prec emax x y) = true.
Proof.
  destruct x as [sx|[]| |[] mx ex], y as [sy|[]| |[] my ey]; try done; intros _ _.
  - by destruct sx, sy.
  - simpl. pose proof (binary_round_signed false
      ((shl_align mx ex (Z.min ex ey)).1 + (shl_align my ey (Z.min ex ey)).1) (Z.min ex ey)) as H.
    destruct (binary_round _ _ _ _ _) as [[]|[]| |[]]; done.
Qed.
End Rounding.

(** The order of binary64 values that are not NaN. *)
Ltac sf_compare_cases :=
  repeat match goal with
    | |- context [Z.compare ?a ?b] => destruct (Z.compare_spec a b)
    | |- context [Pos.compare_cont Eq ?p ?q] =>
        change (Pos.compare_cont Eq p q) with (Pos.compare p q);
        destruct (Pos.compare_spec p q)
    end;
  simpl; intros; subst; try done; try lia.

Ltac sf_cases x := destruct x as [[]|[]| |[] ? ?].

Lemma SFcompare_refl x : sf_not_nan x = true → SFcompare x x = Some Eq.
Proof. sf_cases x; try done; intros _; simpl; sf_compare_cases. Qed.

Lemma SFleb_refl x : sf_not_nan x = true → SFleb x x = true.
Proof. intros Hx. unfold SFleb. by rewrite SFcompare_refl. Qed.

Lemma SFleb_total x y :
  sf_not_nan x = true → sf_not_nan y = true →
  SFltb y x = false → SFleb x y = true.
Proof.
  unfold SFltb, SFleb. sf_cases x; sf_cases y; try done; intros _ _; simpl;
    sf_compare_cases.
Qed.

Lemma SFltb_leb x y : SFltb x y = true → SFleb x y = true.
Proof. unfold SFltb, SFleb. by destruct (SFcompare x y) as [[]|]. Qed.

Lemma SFleb_not_ltb x y : SFleb x y = true → SFltb y x = false.
Proof.
  unfold SFltb, SFleb. sf_cases x; sf_cases y; try done; simpl; sf_compare_cases.
Qed.

Lemma SFleb_antisym_finite x s m e :
  SFleb x (S754_finite s m e) = true → SFleb (S754_finite s m e) x = true →
  x = S754_finite s m e.
Proof.
  unfold SFleb. sf_cases x; destruct s; try done; simpl; sf_compare_cases.
Qed.

Lemma SFleb_trans x y z :
  SFleb x y = true → SFleb y z = true → SFleb x z = true.
Proof.
  unfold SFleb. sf_cases x; sf_cases y; sf_cases z; try done; simpl;
    sf_compare_cases.
Qed.

Section Double.

Implicit Types x y z : float.

Lemma is_finite_spec x : is_finite x = true → sf_finite (Prim2SF x) = true.
Proof.
  unfold is_finite, is_nan, is_infinity.
  rewrite !FloatAxioms.eqb_spec, FloatAxioms.abs_spec. change (Prim2SF infinity) with (S754_infinity false).
  unfold SFeqb. by sf_cases (Prim2SF x).
Qed.

Lemma nonneg_spec x : (0 <=? x)%float = sf_nonneg (Prim2SF x).
Proof.
  rewrite FloatAxioms.leb_spec. change (Prim2SF 0) with (S754_zero false).
  unfold SFleb. by sf_cases (Prim2SF x).
Qed.

Lemma nonneg_not_nan x : (0 <=? x)%float = true → sf_not_nan (Prim2SF x) = true.
Proof. rewrite nonneg_spec. by sf_cases (Prim2SF x). Qed.

Lemma sqr_sub_nonneg x y :
  is_finite x = true → is_finite y = true → (0 <=? C.sqr (x - y))%float = true.
Proof.
  intros Hx%is_finite_spec Hy%is_finite_spec.
  rewrite nonneg_spec. unfold C.sqr. rewrite FloatAxioms.mul_spec, FloatAxioms.sub_spec.
  apply SFmul_square, SFsub_finite; done.
Qed.

Lemma add_nonneg x y :
  (0 <=? x)%float = true → (0 <=? y)%float = true → (0 <=? x + y)%float = true.
Proof. rewrite !nonneg_spec, FloatAxioms.add_spec. apply SFadd_nonneg. Qed.

Lemma leb_refl x : (0 <=? x)%float = true → (x <=? x)%float = true.
Proof. intros Hx%nonneg_not_nan. rewrite FloatAxioms.leb_spec. by apply SFleb_refl. Qed.

Lemma leb_trans x y z :
  (x <=? y)%float = true → (y <=? z)%float = true → (x <=? z)%float = true.
Proof. rewrite !FloatAxioms.leb_spec. apply SFleb_trans. Qed.

Lemma leb_not_ltb x y : (x <=? y)%float = true → (y <? x)%float = false.
Proof. rewrite FloatAxioms.leb_spec, FloatAxioms.ltb_spec. apply SFleb_not_ltb. Qed.

Lemma leb_antisym_DBL_MAX x :
  (x <=? C.DBL_MAX)%float = true → (C.DBL_MAX <=? x)%float = true → x = C.DBL_MAX.
Proof.
  rewrite !FloatAxioms.leb_spec. intros H1 H2. apply Prim2SF_inj.
  change (Prim2SF C.DBL_MAX) with (S754_finite false 9007199254740991 971) in *.
  by apply SFleb_antisym_finite.
Qed.

Lemma min_cases x y : C.min x y = x ∨ C.min x y = y.
Proof. unfold C.min. destruct (y <? x)%float; auto. Qed.

Lemma min_le_l x y :
  (0 <=? x)%float = true → (0 <=? y)%float = true → (C.min x y <=? x)%float = true.
Proof.
  intros Hx Hy. unfold C.min. destruct (y <? x)%float eqn:E.
  - rewrite FloatAxioms.leb_spec. apply SFltb_leb. by rewrite <-FloatAxioms.ltb_spec.
  - by apply leb_refl.
Qed.

Lemma min_le_r x y :
  (0 <=? x)%float = true → (0 <=? y)%float = true → (C.min x y <=? y)%float = true.
Proof.
  intros Hx Hy. unfold C.min. destruct (y <? x)%float eqn:E.
  - by apply leb_refl.
  - rewrite FloatAxioms.leb_spec. rewrite FloatAxioms.ltb_spec in E.
    apply SFleb_total; auto using nonneg_not_nan.
Qed.

Lemma min_nonneg x y :
  (0 <=? x)%float = true → (0 <=? y)%float = true → (0 <=? C.min x y)%float = true.
Proof. intros Hx Hy. by destruct (min_cases x y) as [-> | ->]. Qed.

End Double.

(** ** Loops and folds *)

Lemma range_nil lo hi : hi ≤ lo → range lo hi = [].
Proof. intros. unfold range. apply seqZ_nil. lia. Qed.

Lemma range_cons lo hi : lo < hi → range lo hi = lo :: range (lo + 1) hi.
Proof.
  intros. unfold range. rewrite seqZ_cons by lia.
  f_equal. f_equal; lia.
Qed.

Lemma elem_of_range i lo hi : i ∈ range lo hi ↔ lo ≤ i < hi.
Proof. unfold range. rewrite elem_of_seqZ. lia. Qed.

Lemma for_in_foldl {S} (f : S → Z → S) l body (s : S) :
  (∀ i s, i ∈ l → body i s = Some (f s i)) →
  for_in l body s = Some (foldl f s l).
Proof.
  revert s. induction l as [|i l IH]; intros s Hbody; simpl; [done|].
  rewrite Hbody by left. simpl. apply IH. intros. apply Hbody. by right.
Qed.

Lemma for_in_range_inv {S} (P : Z → S → Prop) (Q : S → Prop) lo hi body (s : S) :
  lo ≤ hi → P lo s →
  (∀ i s, lo ≤ i < hi → P i s → ∃ s', body i s = Some s' ∧ P (i + 1) s') →
  (∀ s, P hi s → Q s) →
  ∃ s', for_in (range lo hi) body s = Some s' ∧ Q s'.
Proof.
  intros Hle Hs Hstep HQ.
  cut (∃ s', for_in (range lo hi) body s = Some s' ∧ P hi s').
  { intros (s' & ? & ?). eauto. }
  clear HQ. remember (Z.to_nat (hi - lo)) as n eqn:Hn.
  revert lo s Hle Hn Hs Hstep. induction n as [|n IH]; intros lo s Hle Hn Hs Hstep.
  - assert (lo = hi) as -> by lia. rewrite range_nil by lia. eauto.
  - rewrite range_cons by lia. simpl.
    destruct (Hstep lo s) as (s' & -> & Hs'); [lia|done|]. simpl.
    apply IH; [lia|lia|done|]. intros. apply Hstep; [lia|done].
Qed.

Lemma foldl_pairs {S} (F : S → Z * Z → S) (xs ys : list Z) (s : S) :
  foldl F s (x ← xs; y ← ys; [(x, y)]) =
  foldl (λ s x, foldl (λ s y, F s (x, y)) s ys) s xs.
Proof.
  revert s. induction xs as [|x xs IH]; intros s; [done|].
  rewrite bind_cons, foldl_app, IH. simpl. f_equal.
  clear. revert s. induction ys as [|y ys IH]; intros s; [done|].
  rewrite bind_cons, foldl_app, IH. done.
Qed.

Lemma foldl_filter {A S} (P : A → Prop) `{!∀ x, Decision (P x)}
    (F : S → A → S) l (s : S) :
  foldl F s (filter P l) = foldl (λ s x, if decide (P x) then F s x else s) s l.
Proof.
  revert s. induction l as [|x l IH]; intros s; [done|].
  rewrite filter_cons. simpl. destruct (decide (P x)); simpl; apply IH.
Qed.

Lemma elem_of_pairs (xs ys : list Z) (p : Z * Z) :
  p ∈ (x ← xs; y ← ys; [(x, y)]) ↔ p.1 ∈ xs ∧ p.2 ∈ ys.
Proof.
  rewrite list_elem_of_bind. setoid_rewrite list_elem_of_bind.
  setoid_rewrite list_elem_of_singleton. destruct p as [x y]; simpl.
  split.
  - intros (x' & (y' & [= -> ->] & Hy) & Hx). done.
  - intros [Hx Hy]. eauto.
Qed.

Lemma elem_of_candidates b r c br bc :
  (br, bc) ∈ candidates b r c ↔
  (r - b ≤ br ≤ r + b ∧ c - b ≤ bc ≤ c + b) ∧ br ≠ r ∧ bc ≠ c.
Proof.
  unfold candidates. rewrite list_elem_of_filter, elem_of_pairs, !elem_of_range.
  simpl. lia.
Qed.

(** ** Integer expressions and pointer accesses *)

Lemma chk_ok z : C.INT_MIN ≤ z ≤ C.INT_MAX → C.chk z = Some z.
Proof.
  intros. unfold C.chk, C.in_int.
  destruct (Z.leb_spec C.INT_MIN z), (Z.leb_spec z C.INT_MAX); done || lia.
Qed.

Lemma in_int_ok z : C.INT_MIN ≤ z ≤ C.INT_MAX → C.in_int z = true.
Proof.
  intros. unfold C.in_int.
  destruct (Z.leb_spec C.INT_MIN z), (Z.leb_spec z C.INT_MAX); done || lia.
Qed.

Lemma int_min_max : C.INT_MIN = -2147483648 ∧ C.INT_MAX = 2147483647.
Proof. done. Qed.

Lemma index_bounds rows cols r c :
  0 ≤ r < rows → 0 ≤ c < cols →
  0 ≤ r * cols ∧ r * cols + cols ≤ rows * cols.
Proof.
  intros Hr Hc.
  pose proof (Z.mul_nonneg_nonneg r cols).
  pose proof (Z.mul_nonneg_nonneg (rows - 1 - r) cols). lia.
Qed.

Lemma index_inj cols r c r' c' :
  0 ≤ c < cols → 0 ≤ c' < cols →
  r * cols + c = r' * cols + c' → r = r' ∧ c = c'.
Proof.
  intros Hc Hc' Heq.
  destruct (Z.lt_trichotomy r r') as [Hlt | [-> | Hgt]]; [|lia|].
  - pose proof (Z.mul_nonneg_nonneg (r' - r - 1) cols). lia.
  - pose proof (Z.mul_nonneg_nonneg (r - r' - 1) cols). lia.
Qed.

(** The index of [(r + dr, c + dc)], computed as in lines 78-79. *)
Lemma index_expr rows cols r dr c dc :
  rows * cols ≤ C.INT_MAX → 0 ≤ r + dr < rows → 0 ≤ c < cols →
  0 ≤ c + dc < cols → C.INT_MIN ≤ r ≤ C.INT_MAX → C.INT_MIN ≤ dr ≤ C.INT_MAX →
  C.INT_MIN ≤ dc ≤ C.INT_MAX →
  ((r + dr) * cols + c + dc)%cint = Some ((r + dr) * cols + (c + dc)).
Proof.
  intros Hsz Hr Hc Hcd Hr' Hdr Hdc.
  destruct (index_bounds rows cols (r + dr) c Hr Hc) as [H1 H2].
  destruct int_min_max as [Hmin Hmax].
  pose proof (Z.mul_nonneg_nonneg rows (cols - 1)).
  unfold C.add, C.mul, C.val.
  rewrite (chk_ok (r + dr)) by lia. rewrite (chk_ok ((r + dr) * cols)) by lia.
  rewrite (chk_ok ((r + dr) * cols + c)) by lia.
  rewrite chk_ok by lia. f_equal. lia.
Qed.

Lemma rows_of_image2d arr rows cols : image2d arr rows cols → rows_of arr = rows.
Proof. intros [Hs _]. unfold rows_of. by rewrite Hs. Qed.

Lemma cols_of_image2d arr rows cols : image2d arr rows cols → cols_of arr = cols.
Proof. intros [Hs _]. unfold cols_of. by rewrite Hs. Qed.

Lemma at2_is_Some arr rows cols r c :
  image2d arr rows cols → 0 ≤ r < rows → 0 ≤ c < cols →
  at2 arr r c = Some (px arr r c).
Proof.
  intros Himg Hr Hc. unfold px, at2.
  rewrite (rows_of_image2d _ _ _ Himg), (cols_of_image2d _ _ _ Himg).
  rewrite bool_decide_eq_true_2 by done.
  destruct (index_bounds rows cols r c Hr Hc) as [H1 H2].
  destruct (lookup_lt_is_Some_2 (data arr) (Z.to_nat (r * cols + c))) as [x ->];
    [destruct Himg; lia | done].
Qed.

Lemma at2_lookup arr rows cols r c :
  image2d arr rows cols → 0 ≤ r < rows → 0 ≤ c < cols →
  at2 arr r c = data arr !! Z.to_nat (r * cols + c).
Proof.
  intros Himg Hr Hc. unfold at2.
  rewrite (rows_of_image2d _ _ _ Himg), (cols_of_image2d _ _ _ Himg).
  by rewrite bool_decide_eq_true_2.
Qed.

Lemma load_px h p arr rows cols r c :
  h !! p = Some arr → image2d arr rows cols → 0 ≤ r < rows → 0 ≤ c < cols →
  load h p (Some (r * cols + c)) = Some (px arr r c).
Proof.
  intros Hp Himg Hr Hc. unfold load. simpl. rewrite Hp. simpl.
  destruct (index_bounds rows cols r c Hr Hc) as [H1 H2].
  rewrite bool_decide_eq_true_2 by lia.
  rewrite <-(at2_lookup arr rows cols) by done.
  by apply (at2_is_Some arr rows cols).
Qed.

(** ** The C loops compute the response *)

Section LoopsCorrect.

Context (image out : loc) (arr : ndarray) (rows cols b : Z).
Hypothesis Himg : image2d arr rows cols.
Hypothesis Hfit : fits_int rows cols b.
Hypothesis Hb : 0 ≤ b.

Lemma msum_loop_spec h r c br bc :
  h !! image = Some arr →
  b ≤ r < rows - b → b ≤ c < cols - b →
  b ≤ br < rows - b → b ≤ bc < cols - b →
  msum_loop image cols b h r c br bc = Some (SSD arr b r c (br, bc)).
Proof.
  intros Hh Hr Hc Hbr Hbc.
  destruct Hfit as (Hrows & Hcols & Hsz & H2b). destruct int_min_max as [Hmin Hmax].
  assert ((- b)%cint = Some (- b)) as Elo
    by (unfold C.neg, C.val; apply chk_ok; lia).
  assert ((b + 1)%cint = Some (b + 1)) as Ehi
    by (unfold C.add, C.val; apply chk_ok; lia).
  unfold msum_loop. rewrite Elo, Ehi. simpl.
  rewrite (for_in_foldl (λ s mr, foldl (λ s mc,
    s + C.sqr (px arr (r + mr) (c + mc) - px arr (br + mr) (bc + mc)))%float
    s (range (- b) (b + 1)))).
  - unfold SSD, window. by rewrite foldl_pairs.
  - intros mr s Hmr%elem_of_range.
    apply for_in_foldl. intros mc s' Hmc%elem_of_range.
    rewrite (index_expr rows), (index_expr rows) by lia.
    rewrite !(load_px h image arr rows cols) by (done || lia).
    done.
Qed.

Lemma min_msum_loop_spec h r c :
  h !! image = Some arr →
  2 * b ≤ r < rows - 2 * b → 2 * b ≤ c < cols - 2 * b →
  min_msum_loop image cols b h r c = Some (response arr b r c).
Proof.
  intros Hh Hr Hc.
  destruct Hfit as (Hrows & Hcols & Hsz & H2b). destruct int_min_max as [Hmin Hmax].
  assert (∀ x, 2 * b ≤ x < C.INT_MAX - 2 * b →
    (x - b)%cint = Some (x - b) ∧ (x + b + 1)%cint = Some (x + b + 1)) as Ebounds.
  { intros x Hx. unfold C.add, C.sub, C.val.
    rewrite (chk_ok (x - b)), (chk_ok (x + b)) by lia.
    by rewrite chk_ok by lia. }
  destruct (Ebounds r) as [Elo Ehi]; [lia|].
  destruct (Ebounds c) as [Elo' Ehi']; [lia|].
  unfold min_msum_loop. rewrite Elo, Ehi, Elo', Ehi'. simpl.
  rewrite (for_in_foldl (λ m br, foldl (λ m bc,
    if decide (br ≠ r ∧ bc ≠ c) then C.min (SSD arr b r c (br, bc)) m else m)
    m (range (c - b) (c + b + 1)))).
  - unfold response, candidates. by rewrite foldl_filter, foldl_pairs.
  - intros br m Hbr%elem_of_range.
    apply for_in_foldl. intros bc m' Hbc%elem_of_range.
    destruct (decide (br ≠ r ∧ bc ≠ c)).
    + rewrite bool_decide_eq_true_2 by done.
      rewrite msum_loop_spec by (done || lia). done.
    + by rewrite bool_decide_eq_false_2.
Qed.

End LoopsCorrect.

Section OuterLoops.

Context (image out : loc) (arr o : ndarray) (rows cols b : Z) (h : heap).
Hypothesis Himg : image2d arr rows cols.
Hypothesis Hout : image2d o rows cols.
Hypothesis Hfit : fits_int rows cols b.
Hypothesis Hb : 0 ≤ b.
Hypothesis Hh : h !! image = Some arr.
Hypothesis Ho : h !! out = Some o.
Hypothesis Hne : image ≠ out.

Local Abbreviation buffer d := {| shape := shape o; data := d |}.
Local Abbreviation idx r c := (Z.to_nat (r * cols + c)).

Local Abbreviation progress := (progress_of h out o arr rows cols b).

Local Lemma progress_ext (P Q : Z → Z → Prop)
    `{!∀ r c, Decision (P r c)} `{!∀ r c, Decision (Q r c)} hc :
  (∀ r c, 0 ≤ r < rows → 0 ≤ c < cols → P r c ↔ Q r c) →
  progress P hc → progress Q hc.
Proof.
  intros HPQ (d & -> & Hlen & Hd). exists d. split_and!; [done..|].
  intros r c Hr Hc. rewrite Hd by done.
  by rewrite (bool_decide_ext _ _ (HPQ r c Hr Hc)).
Qed.

Local Lemma progress_start : progress (λ _ _, False) h.
Proof.
  exists (data o). split_and!; [|done|done].
  symmetry. apply list_insert_id. rewrite Ho. by destruct o.
Qed.

Local Lemma progress_step (P : Z → Z → Prop) `{!∀ r c, Decision (P r c)} hc r0 c0 :
  2 * b ≤ r0 < rows - 2 * b → 2 * b ≤ c0 < cols - 2 * b →
  progress P hc →
  ∃ hc', (min_msum ← min_msum_loop image cols b hc r0 c0;
          store hc out (r0 * cols + c0)%cint min_msum) = Some hc' ∧
         progress (λ r c, P r c ∨ (r = r0 ∧ c = c0)) hc'.
Proof.
  intros Hr0 Hc0 (d & -> & Hlen & Hd).
  pose proof (lookup_lt_Some _ _ _ Ho) as Hlt.
  rewrite (min_msum_loop_spec image arr rows cols b) by
    (done || by rewrite list_lookup_insert_ne).
  simpl.
  destruct Hfit as (Hrows & Hcols & Hsz & H2b). destruct int_min_max as [Hmin Hmax].
  destruct (index_bounds rows cols r0 c0) as [H1 H2]; [lia..|].
  assert ((r0 * cols + c0)%cint = Some (r0 * cols + c0)) as ->.
  { unfold C.add, C.mul, C.val. rewrite (chk_ok (r0 * cols)) by lia.
    by rewrite chk_ok by lia. }
  unfold store. simpl. rewrite list_lookup_insert_eq by done. simpl.
  destruct Hout as [_ Hlen'].
  rewrite bool_decide_eq_true_2 by lia.
  eexists. split; [done|].
  exists (<[idx r0 c0 := response arr b r0 c0]> d).
  rewrite list_insert_insert_eq, length_insert. split_and!; [done..|].
  intros r c Hr Hc. destruct (decide (r = r0 ∧ c = c0)) as [[-> ->]|Hrc].
  - rewrite list_lookup_insert_eq by lia.
    by rewrite bool_decide_eq_true_2 by auto.
  - rewrite list_lookup_insert_ne.
    + rewrite Hd by done. apply (f_equal (λ x : bool, if x then _ else _)).
      apply bool_decide_ext. tauto.
    + intros Heq. apply Hrc, (index_inj cols); [lia..|].
      destruct (index_bounds rows cols r c); lia.
Qed.

Lemma moravec_loops_spec :
  ∃ d, moravec_loops image out rows cols b h = Some (<[out := buffer d]> h) ∧
       length d = length (data o) ∧
       ∀ r c, 0 ≤ r < rows → 0 ≤ c < cols →
         d !! idx r c = if bool_decide (interior rows cols b r c)
                        then Some (response arr b r c)
                        else data o !! idx r c.
Proof.
  destruct Hfit as (Hrows & Hcols & Hsz & H2b). destruct int_min_max as [Hmin Hmax].
  assert ((2 * b)%cint = Some (2 * b)) as Elo
    by (unfold C.mul, C.val; apply chk_ok; lia).
  assert (∀ n, 0 ≤ n ≤ C.INT_MAX → (n - 2 * b)%cint = Some (n - 2 * b)) as Ehi.
  { intros n Hn. rewrite Elo. unfold C.sub, C.val. apply chk_ok. lia. }
  cut (∃ hc, moravec_loops image out rows cols b h = Some hc ∧
             progress (interior rows cols b) hc).
  { intros (hc & -> & d & -> & Hd). eauto. }
  unfold moravec_loops. rewrite (Ehi rows), (Ehi cols), Elo by done. simpl.
  destruct (decide (2 * b ≤ rows - 2 * b)) as [Hrange|Hrange]; cycle 1.
  { rewrite range_nil by lia. simpl. eexists. split; [done|].
    eapply progress_ext, progress_start. unfold interior. intros; simpl; lia. }
  apply (for_in_range_inv
    (λ r0 hc, progress (λ r c, 2 * b ≤ r < r0 ∧ 2 * b ≤ c < cols - 2 * b) hc));
    [exact Hrange | | | ].
  - eapply progress_ext, progress_start. intros; simpl; lia.
  - intros r0 hc Hr0 Hhc.
    destruct (decide (2 * b ≤ cols - 2 * b)) as [Hrange'|Hrange']; cycle 1.
    { rewrite range_nil by lia. simpl. eexists. split; [done|].
      eapply progress_ext, Hhc. intros; simpl; lia. }
    apply (for_in_range_inv
      (λ c0 hc, progress (λ r c, (2 * b ≤ r < r0 ∧ 2 * b ≤ c < cols - 2 * b) ∨
                                 (r = r0 ∧ 2 * b ≤ c < c0)) hc));
      [exact Hrange' | | | ].
    + eapply progress_ext, Hhc. intros; simpl; lia.
    + intros c0 hc0 Hc0 Hhc0.
      destruct (progress_step _ hc0 r0 c0 Hr0 Hc0 Hhc0) as (hc1 & -> & Hhc1).
      eexists. split; [done|].
      eapply progress_ext, Hhc1. intros; simpl; lia.
    + intros hc' Hhc'. eapply progress_ext, Hhc'. intros; simpl; lia.
  - intros hc Hhc. eapply progress_ext, Hhc. unfold interior. intros; simpl; lia.
Qed.

End OuterLoops.

(** ** The call as a whole *)

Section Call.

Variable rgb2grey : ndarray → exn + ndarray.

(** On a two-dimensional image whose sizes are C [int]s the Python part
    allocates the output and hands over to the loops. *)
Lemma moravec_2d h image arr rows cols b :
  h !! image = Some arr → shape arr = [rows; cols] →
  C.in_int rows = true → C.in_int cols = true → C.in_int b = true →
  moravec rgb2grey image b h =
    match moravec_loops image (length h) rows cols b (h ++ [zeros_like arr]) with
    | Some h' => Ok (length h) h'
    | None => Undefined
    end.
Proof.
  intros Hh Hs Hrows Hcols Hb.
  pose proof (lookup_lt_Some _ _ _ Hh) as Hlt.
  unfold moravec, acquire_2d, img_as_float, ascontiguousarray, as_int,
    shape_item, alloc, run_loops, deref, bind, ret, ndim.
  rewrite Hb, Hh, Hs. simpl. rewrite Hrows, Hcols. simpl.
  rewrite Hh. simpl. rewrite Hs. simpl. rewrite Hh. simpl.
  rewrite list_lookup_middle by done. simpl. rewrite Hs. simpl.
  by destruct (moravec_loops _ _ _ _ _ _).
Qed.

(** On a two-dimensional image, for a block size that is not negative
    and sizes within the [int] range, the call returns a new array of
    the shape of the image: the response in the interior, zero
    elsewhere. *)
Lemma moravec_returns h image arr rows cols b :
  h !! image = Some arr → image2d arr rows cols → fits_int rows cols b → 0 ≤ b →
  ∃ res, moravec rgb2grey image b h = Ok (length h) (h ++ [res]) ∧
         image2d res rows cols ∧
         ∀ r c, 0 ≤ r < rows → 0 ≤ c < cols →
           at2 res r c = Some (if bool_decide (interior rows cols b r c)
                               then response arr b r c else 0%float).
Proof.
  intros Hh Himg Hfit Hb.
  pose proof (lookup_lt_Some _ _ _ Hh) as Hlt.
  assert (image2d (zeros_like arr) rows cols) as Hz.
  { destruct Himg as [Hs Hl]. split; [done|]. simpl. by rewrite length_replicate. }
  destruct (moravec_loops_spec image (length h) arr (zeros_like arr) rows cols b
    (h ++ [zeros_like arr])) as (d & Hrun & Hlen & Hd); try done.
  { by rewrite lookup_app_l. }
  { by rewrite list_lookup_middle. }
  { lia. }
  exists {| shape := shape (zeros_like arr); data := d |}.
  assert (image2d {| shape := shape (zeros_like arr); data := d |} rows cols) as Hres.
  { destruct Hz as [Hs Hl]. split; [done|]. simpl. by rewrite Hlen. }
  split_and!; [|done|].
  - destruct Hfit as (Hrows & Hcols & Hsz & H2b). destruct int_min_max as [Hmin Hmax].
    destruct Himg as [Hs Hl].
    rewrite (moravec_2d h image arr rows cols b) by (done || apply in_int_ok; lia).
    rewrite Hrun. f_equal.
    rewrite <-(Nat.add_0_r (length h)) at 1. by rewrite insert_app_r.
  - intros r c Hr Hc. rewrite (at2_lookup _ rows cols) by done. simpl.
    rewrite Hd by done. case_bool_decide; [done|].
    destruct (index_bounds rows cols r c Hr Hc).
    simpl. rewrite lookup_replicate_2; [done|]. destruct Himg. lia.
Qed.

End Call.

(** ** Values of the response *)

Lemma finite_image_spec arr x :
  finite_image arr = true → x ∈ data arr → is_finite x = true.
Proof.
  unfold finite_image. rewrite forallb_forall. intros Hfin Hx.
  by apply Hfin, list_elem_of_In.
Qed.

Lemma zero_image_spec arr x :
  zero_image arr = true → x ∈ data arr → is_zero x = true.
Proof.
  unfold zero_image. rewrite forallb_forall. intros Hzero Hx.
  by apply Hzero, list_elem_of_In.
Qed.

Lemma is_zero_sf x : is_zero x = true → ∃ s, Prim2SF x = S754_zero s.
Proof.
  unfold is_zero. rewrite FloatAxioms.eqb_spec.
  change (Prim2SF zero) with (S754_zero false). unfold SFeqb.
  destruct (Prim2SF x) as [s|[]| |[] m e]; try done. eauto.
Qed.

(** The squared difference of two zeros is [0.0], whatever their signs. *)
Lemma sqr_sub_zero x y :
  is_zero x = true → is_zero y = true → C.sqr (x - y) = 0%float.
Proof.
  intros [sx Hx]%is_zero_sf [sy Hy]%is_zero_sf. apply Prim2SF_inj.
  unfold C.sqr. rewrite FloatAxioms.mul_spec, FloatAxioms.sub_spec, Hx, Hy.
  by destruct sx, sy.
Qed.

Lemma px_finite arr r c : finite_image arr = true → is_finite (px arr r c) = true.
Proof.
  intros Hfin. unfold px, at2. case_bool_decide; [|done].
  destruct (data arr !! _) as [x|] eqn:Hx; [|done].
  simpl. eapply finite_image_spec, list_elem_of_lookup_2, Hx. done.
Qed.

Lemma px_zero arr r c : zero_image arr = true → is_zero (px arr r c) = true.
Proof.
  intros Hzero. unfold px, at2. case_bool_decide; [|done].
  destruct (data arr !! _) as [x|] eqn:Hx; [|done].
  simpl. eapply zero_image_spec, list_elem_of_lookup_2, Hx. done.
Qed.

Lemma foldl_add_nonneg {A} (g : A → float) l acc :
  (0 <=? acc)%float = true → (∀ x, (0 <=? g x)%float = true) →
  (0 <=? foldl (λ s x, s + g x) acc l)%float = true.
Proof.
  intros Hacc Hg. revert acc Hacc.
  induction l as [|x l IH]; intros acc Hacc; [done|].
  simpl. by apply IH, add_nonneg.
Qed.

Lemma SSD_nonneg arr b r c s :
  finite_image arr = true → (0 <=? SSD arr b r c s)%float = true.
Proof.
  intros Hfin. unfold SSD.
  apply (foldl_add_nonneg (λ off,
    C.sqr (px arr (r + off.1) (c + off.2) - px arr (s.1 + off.1) (s.2 + off.2)))%float);
    [done|].
  intros off. apply sqr_sub_nonneg; by apply px_finite.
Qed.

Lemma SSD_zero arr b r c s : zero_image arr = true → SSD arr b r c s = 0%float.
Proof.
  intros Hzero. unfold SSD. induction (window b) as [|off l IH]; [done|].
  simpl. by rewrite sqr_sub_zero by by apply px_zero.
Qed.

Lemma foldl_min_is_min {A} (f : A → float) l m0 :
  (0 <=? m0)%float = true → (∀ x, x ∈ l → (0 <=? f x)%float = true) →
  is_min (foldl (λ m x, C.min (f x) m) m0 l) (m0 :: (f <$> l)) ∧
  (0 <=? foldl (λ m x, C.min (f x) m) m0 l)%float = true.
Proof.
  revert m0. induction l as [|a l IH]; intros m0 Hm0 Hl; simpl.
  - split; [|done]. split; [left|].
    intros x ->%list_elem_of_singleton. by apply leb_refl.
  - assert ((0 <=? f a)%float = true) as Ha by (apply Hl; left).
    destruct (IH (C.min (f a) m0)) as [[Hin Hle] Hpos].
    { by apply min_nonneg. }
    { intros x Hx. apply Hl. by right. }
    split; [|done]. split.
    + apply elem_of_cons in Hin as [-> | Hin].
      * destruct (min_cases (f a) m0) as [-> | ->]; [right; left | left].
      * by do 2 right.
    + assert ((foldl (λ m x, C.min (f x) m) (C.min (f a) m0) l <=? C.min (f a) m0)%float
              = true) as Hmin by (apply Hle; left).
      intros x [-> | [-> | Hx]%elem_of_cons]%elem_of_cons.
      * eapply leb_trans; [exact Hmin|]. by apply min_le_r.
      * eapply leb_trans; [exact Hmin|]. by apply min_le_l.
      * apply Hle. by right.
Qed.

Lemma response_is_min arr b r c :
  finite_image arr = true →
  is_min (response arr b r c) (C.DBL_MAX :: (SSD arr b r c <$> candidates b r c)) ∧
  (0 <=? response arr b r c)%float = true.
Proof.
  intros Hfin. apply (foldl_min_is_min (SSD arr b r c)); [reflexivity|].
  intros s _. by apply SSD_nonneg.
Qed.

Lemma diagonal_candidates b r c :
  1 ≤ b →
  (r - 1, c - 1) ∈ candidates b r c ∧ (r - 1, c + 1) ∈ candidates b r c ∧
  (r + 1, c - 1) ∈ candidates b r c ∧ (r + 1, c + 1) ∈ candidates b r c.
Proof. intros. rewrite !elem_of_candidates. lia. Qed.

Lemma response_zero arr b r c :
  1 ≤ b → zero_image arr = true → response arr b r c = 0%float.
Proof.
  intros Hb Hzero. unfold response.
  destruct (diagonal_candidates b r c Hb) as [Hin _].
  destruct (candidates b r c) as [|s l]; [inversion Hin|].
  clear Hin. simpl. rewrite SSD_zero by done.
  change (C.min 0 C.DBL_MAX) with 0%float.
  induction l as [|s' l IH]; [done|]. simpl. rewrite SSD_zero by done.
  change (C.min 0 0) with 0%float. apply IH.
Qed.

(** ** Cells and indices *)

Lemma index_decompose rows cols i :
  0 ≤ cols → 0 ≤ i < rows * cols →
  ∃ r c, 0 ≤ r < rows ∧ 0 ≤ c < cols ∧ i = r * cols + c.
Proof.
  intros Hcols Hi.
  assert (0 < cols) as Hpos.
  { destruct (decide (cols = 0)) as [-> |]; [|lia]. rewrite Z.mul_0_r in Hi. lia. }
  exists (i / cols), (i mod cols).
  pose proof (Z.mod_pos_bound i cols Hpos).
  pose proof (Z.div_pos i cols ltac:(lia) Hpos).
  pose proof (Z.div_lt_upper_bound i cols rows Hpos ltac:(lia)).
  pose proof (Z.div_mod i cols ltac:(lia)). lia.
Qed.

Lemma cell_of_index arr rows cols i x :
  image2d arr rows cols → 0 ≤ cols → data arr !! i = Some x →
  ∃ r c, 0 ≤ r < rows ∧ 0 ≤ c < cols ∧ at2 arr r c = Some x.
Proof.
  intros Himg Hcols Hx. pose proof (lookup_lt_Some _ _ _ Hx) as Hlt.
  destruct (index_decompose rows cols (Z.of_nat i)) as (r & c & Hr & Hc & Hi);
    [done | destruct Himg; lia |].
  exists r, c. split_and!; [lia..|].
  rewrite (at2_lookup _ rows cols) by done. by rewrite <-Hi, Nat2Z.id.
Qed.

Lemma image2d_ext arr arr' rows cols :
  image2d arr rows cols → image2d arr' rows cols → 0 ≤ cols →
  (∀ r c, 0 ≤ r < rows → 0 ≤ c < cols → at2 arr r c = at2 arr' r c) →
  arr = arr'.
Proof.
  intros Himg Himg' Hcols Hcells.
  assert (data arr = data arr') as Hdata.
  { apply list_eq. intros i.
    destruct (decide (i < length (data arr))%nat) as [Hlt|Hge].
    - destruct (index_decompose rows cols (Z.of_nat i)) as (r & c & Hr & Hc & Hi);
        [done | destruct Himg; lia |].
      specialize (Hcells r c Hr Hc).
      rewrite !(at2_lookup _ rows cols), <-Hi, Nat2Z.id in Hcells; done.
    - rewrite !lookup_ge_None_2; [done | | lia].
      destruct Himg as [_ Hl], Himg' as [_ Hl']. lia. }
  destruct Himg as [Hs _], Himg' as [Hs' _].
  destruct arr, arr'; simpl in *. by subst.
Qed.

(** ** Small images *)

Lemma moravec_loops_small image out rows cols b h :
  0 ≤ rows ≤ C.INT_MAX → 0 ≤ cols ≤ C.INT_MAX → 0 ≤ b → 2 * b ≤ C.INT_MAX →
  rows < 4 * b + 1 ∨ cols < 4 * b + 1 →
  moravec_loops image out rows cols b h = Some h.
Proof.
  intros Hrows Hcols Hb H2b Hsmall. destruct int_min_max as [Hmin Hmax].
  assert ((2 * b)%cint = Some (2 * b)) as Elo
    by (unfold C.mul, C.val; apply chk_ok; lia).
  assert (∀ n, 0 ≤ n ≤ C.INT_MAX → (n - 2 * b)%cint = Some (n - 2 * b)) as Ehi.
  { intros n Hn. rewrite Elo. unfold C.sub, C.val. apply chk_ok. lia. }
  unfold moravec_loops. rewrite (Ehi rows), (Ehi cols), Elo by done. simpl.
  destruct (decide (2 * b ≤ rows - 2 * b)) as [Hrange|Hrange]; cycle 1.
  { by rewrite range_nil by lia. }
  destruct (for_in_range_inv (λ _ hc, hc = h) (λ hc, hc = h) (2 * b) (rows - 2 * b)
    (λ r h, for_in (range (2 * b) (cols - 2 * b)) (λ c h,
       min_msum ← min_msum_loop image cols b h r c;
       store h out (r * cols + c)%cint min_msum) h) h) as (hc & -> & ->); try done.
  intros r hc Hr ->. exists h. split; [|done]. by rewrite range_nil by lia.
Qed.

(** ** The objects of the caller *)

Lemma for_in_preserves {S} (I : S → Prop) l body (s s' : S) :
  (∀ i s s', I s → body i s = Some s' → I s') →
  I s → for_in l body s = Some s' → I s'.
Proof.
  intros Hbody. revert s. induction l as [|i l IH]; intros s Hs Hrun; simpl in Hrun.
  - by simplify_eq.
  - apply bind_Some in Hrun as (s1 & Hs1 & Hrun). eauto.
Qed.

Lemma store_fresh h z i x hc :
  store (h ++ [z]) (length h) i x = Some hc → ∃ z', hc = h ++ [z'].
Proof.
  unfold store. intros (i' & -> & Hrun)%bind_Some.
  rewrite list_lookup_middle in Hrun by done. simpl in Hrun.
  case_bool_decide; [|done]. injection Hrun as <-. eexists.
  rewrite <-(Nat.add_0_r (length h)) at 1. by rewrite insert_app_r.
Qed.

Lemma moravec_loops_frame image h z rows cols b hc :
  moravec_loops image (length h) rows cols b (h ++ [z]) = Some hc →
  ∃ z', hc = h ++ [z'].
Proof.
  unfold moravec_loops.
  intros (lo & _ & (hi & _ & Hrun)%bind_Some)%bind_Some.
  eapply (for_in_preserves (λ hc, ∃ z', hc = h ++ [z'])), Hrun; [|by eauto].
  clear. intros r s s' Hs (lo & _ & (hi & _ & Hrun)%bind_Some)%bind_Some.
  eapply (for_in_preserves (λ hc, ∃ z', hc = h ++ [z'])), Hrun; [|done].
  clear. intros c s s' [z' ->] (m & _ & Hrun)%bind_Some.
  by eapply store_fresh.
Qed.

(** Whatever the arguments, a call that returns or raises has only added
    objects to the heap. *)
Lemma moravec_frame rgb2grey h image b h' :
  final_heap (moravec rgb2grey image b h) = Some h' → ∃ new, h' = h ++ new.
Proof.
  assert (∀ hc, hc = h ++ [] → ∃ new, hc = h ++ new) as Hnil by eauto.
  unfold moravec, call_rgb2grey, acquire_2d, img_as_float, ascontiguousarray,
    as_int, shape_item, alloc, run_loops, deref, bind, ret, raise.
  repeat (case_match; simplify_eq/=); intros; simplify_eq; eauto using app_nil_r;
    try (by eexists; rewrite app_nil_r);
    try (edestruct moravec_loops_frame as [z' ->]; [eassumption|]);
    rewrite <-?app_assoc; by eauto.
Qed.

(** An image with a third dimension makes the call raise. *)
Lemma moravec_3d rgb2grey h image arr b :
  h !! image = Some arr → ndim arr = 3%nat →
  ∃ e h', moravec rgb2grey image b h = Raise e h'.
Proof.
  intros Hh Hnd. pose proof (lookup_lt_Some _ _ _ Hh) as Hlt.
  unfold moravec, call_rgb2grey, acquire_2d, img_as_float, ascontiguousarray,
    as_int, shape_item, alloc, run_loops, deref, bind, ret, raise.
  destruct (C.in_int b); [|by eauto]. rewrite Hh.
  unfold ndim in *.
  destruct (shape arr) as [|d0 [|d1 [|d2 [|]]]] eqn:Hs; try done. simpl.
  destruct (C.in_int d0); [|by eauto]. destruct (C.in_int d1); [|by eauto]. simpl.
  rewrite Hh. destruct (rgb2grey arr) as [e|grey]; [by eauto|].
  rewrite list_lookup_middle by done.
  case_bool_decide; [|by eauto]. rewrite lookup_app_l, Hh by done.
  simpl. rewrite bool_decide_eq_false_2; [by eauto|]. by rewrite Hs.
Qed.

(** ** Negative block sizes *)

Lemma chk_Some z z' : C.chk z = Some z' → z' = z.
Proof. unfold C.chk. destruct (C.in_int z); congruence. Qed.

Lemma store_before h out (i : C.int) x :
  (∀ z, i = Some z → z < 0) → store h out i x = None.
Proof.
  intros Hi. unfold store. destruct i as [z|]; [|done]. simpl.
  destruct (h !! out); [|done]. simpl.
  rewrite bool_decide_eq_false_2; [done|]. specialize (Hi z eq_refl). lia.
Qed.

(** The first cell the loops write is at [2b * cols + 2b], before the
    start of the buffer. *)
Lemma moravec_loops_negative image out rows cols b h :
  0 ≤ rows → 0 ≤ cols → b < 0 →
  moravec_loops image out rows cols b h = None.
Proof.
  intros Hrows Hcols Hb. unfold moravec_loops.
  destruct (2 * b)%cint as [lo|] eqn:Elo; [|done].
  apply chk_Some in Elo as ->. unfold C.sub, C.val. simpl.
  destruct (C.chk (rows - 2 * b)) as [hi|] eqn:Ehi; [|done].
  apply chk_Some in Ehi as ->. simpl.
  rewrite (range_cons (2 * b) (rows - 2 * b)) by lia. simpl.
  destruct (C.chk (cols - 2 * b)) as [hi|] eqn:Ehi; [|done].
  apply chk_Some in Ehi as ->. simpl.
  rewrite (range_cons (2 * b) (cols - 2 * b)) by lia. simpl.
  destruct (min_msum_loop _ _ _ _ _ _) as [m|]; [|done]. simpl.
  rewrite store_before; [done|]. intros i. unfold C.add, C.mul.
  destruct (C.chk (2 * b * cols)) as [j|] eqn:Ej; [|done].
  apply chk_Some in Ej as ->. intros ->%chk_Some.
  pose proof (Z.mul_nonneg_nonneg (- (2 * b)) cols). lia.
Qed.

(** A negative block size is not rejected either: the call has no
    defined result. *)
Lemma moravec_negative rgb2grey h image arr rows cols b :
  h !! image = Some arr → shape arr = [rows; cols] →
  0 ≤ rows ≤ C.INT_MAX → 0 ≤ cols ≤ C.INT_MAX → C.INT_MIN ≤ b < 0 →
  moravec rgb2grey image b h = Undefined.
Proof.
  intros Hh Hs Hrows Hcols Hb. destruct int_min_max as [Hmin Hmax].
  rewrite (moravec_2d rgb2grey h image arr rows cols b)
    by (done || apply in_int_ok; lia).
  by rewrite moravec_loops_negative by lia.
Qed.

(** ** Concrete runs *)

Example candidates_of_centre : candidates 1 2 2 = [(1, 1); (1, 3); (3, 1); (3, 3)].
Proof. reflexivity. Qed.

Example response_of_square_centre : response square 1 3 3 = 2%float.
Proof. reflexivity. Qed.

Example shifts_of_spike :
  SSD spike 1 2 2 <$> candidates 1 2 2 = [infinity; infinity; infinity; infinity].
Proof. reflexivity. Qed.

Example run_spike :
  moravec first_channel 0%nat 1 [spike] =
    Ok 1%nat [spike; {| shape := [5; 5];
                        data := <[12%nat := C.DBL_MAX]> (replicate 25 0%float) |}].
Proof. reflexivity. Qed.

Example run_rgb_pixel :
  moravec first_channel 0%nat 1 [rgb_pixel] =
    Raise ValueError [rgb_pixel; {| shape := [1; 1]; data := [0%float] |}].
Proof. reflexivity. Qed.

Example run_negative_block_size :
  moravec first_channel 0%nat (-1) [pixel] = Undefined.
Proof. reflexivity. Qed.

Example run_overflowing_block_size :
  moravec first_channel 0%nat (2 ^ 30) [pixel] = Undefined.
Proof. reflexivity. Qed.

Example run_huge_block_size :
  moravec first_channel 0%nat (2 ^ 31) [pixel] = Raise OverflowError [pixel].
Proof. reflexivity. Qed.

(** * The claims *)

(** C1, as amended.  On a two-dimensional image of finite doubles, for a
    block size [b >= 1] (the sizes within the [int] range), the call
    returns, and the cell of an interior pixel [(r, c)], with [r] in
    [2b, rows - 2b) and [c] in [2b, cols - 2b), is the minimum of
    [DBL_MAX] and of the sums of squared differences [SSD] over exactly
    the candidate shifts [(br, bc)] of [r-b, r+b] x [c-b, c+b] with
    [br <> r] and [bc <> c].  It is the minimum over the candidates alone
    as soon as one of their sums is at most [DBL_MAX], and it is
    [DBL_MAX] when all of them are above (have overflowed). *)
Theorem moravec_interior_min rgb2grey h image arr rows cols b r c :
  h !! image = Some arr → image2d arr rows cols → fits_int rows cols b →
  finite_image arr = true → 1 ≤ b → interior rows cols b r c →
  ∃ res m, moravec rgb2grey image b h = Ok (length h) (h ++ [res]) ∧
           at2 res r c = Some m ∧
           is_min m (C.DBL_MAX :: (SSD arr b r c <$> candidates b r c)) ∧
           ((∃ s, s ∈ candidates b r c ∧ (SSD arr b r c s <=? C.DBL_MAX)%float = true) →
            is_min m (SSD arr b r c <$> candidates b r c)) ∧
           ((∀ s, s ∈ candidates b r c → (SSD arr b r c s <=? C.DBL_MAX)%float = false) →
            m = C.DBL_MAX).
Proof.
  intros Hh Himg Hfit Hfin Hb Hint.
  destruct (moravec_returns rgb2grey h image arr rows cols b)
    as (res & Hrun & Hres & Hcells); [done.. | lia |].
  exists res, (response arr b r c).
  destruct (response_is_min arr b r c Hfin) as [[Hin Hle] _].
  split_and!; [done | | done | |].
  - rewrite Hcells by (unfold interior in Hint; lia).
    by rewrite bool_decide_eq_true_2.
  - intros (s & Hs & Hfits). split; [|intros x Hx; apply Hle; by right].
    apply elem_of_cons in Hin as [Hmax | Hin]; [|done].
    replace (response arr b r c) with (SSD arr b r c s);
      [by apply list_elem_of_fmap_2|].
    rewrite Hmax. apply leb_antisym_DBL_MAX; [done|].
    rewrite <-Hmax. apply Hle. right. by apply list_elem_of_fmap_2.
  - intros Hover. apply elem_of_cons in Hin as [Hmax | Hin]; [done|].
    apply list_elem_of_fmap in Hin as (s & Hm & Hs).
    specialize (Hover s Hs). rewrite <-Hm in Hover.
    rewrite Hle in Hover by left. done.
Qed.

Lemma moravec_interior_min_witness :
  ∃ res m, moravec first_channel 0%nat 1 [square] = Ok 1%nat ([square] ++ [res]) ∧
           at2 res 3 3 = Some m ∧
           is_min m (C.DBL_MAX :: (SSD square 1 3 3 <$> candidates 1 3 3)) ∧
           ((∃ s, s ∈ candidates 1 3 3 ∧ (SSD square 1 3 3 s <=? C.DBL_MAX)%float = true) →
            is_min m (SSD square 1 3 3 <$> candidates 1 3 3)) ∧
           ((∀ s, s ∈ candidates 1 3 3 → (SSD square 1 3 3 s <=? C.DBL_MAX)%float = false) →
            m = C.DBL_MAX).
Proof.
  apply (moravec_interior_min first_channel [square] 0%nat square 7 7 1 3 3).
  - reflexivity.
  - split; reflexivity.
  - unfold fits_int, C.INT_MAX. lia.
  - reflexivity.
  - lia.
  - unfold interior. lia.
Defined.

(** C1 as stated fails on [spike]: every candidate shift of the centre
    has a sum of squared differences that overflows to [+infinity], and
    the cell holds [DBL_MAX], which is none of them. *)
Lemma spike_centre_not_min_of_shifts :
  ¬ ∃ out h' res m,
      moravec first_channel 0%nat 1 [spike] = Ok out h' ∧ h' !! out = Some res ∧
      at2 res 2 2 = Some m ∧ is_min m (SSD spike 1 2 2 <$> candidates 1 2 2).
Proof.
  intros (out & h' & res & m & Hrun & Hres & Hm & [Hin _]).
  vm_compute in Hrun. injection Hrun as <- <-.
  injection Hres as <-. vm_compute in Hm. injection Hm as <-.
  apply list_elem_of_In in Hin. vm_compute in Hin.
  repeat (destruct Hin as [Hin | Hin];
          [apply (f_equal is_finite) in Hin; vm_compute in Hin; discriminate|]).
  destruct Hin.
Qed.

(** C2.  For the 7 x 7 image of the docstring, zero but for a one at
    [(3, 3)], and block size 1, the call returns the map of the
    docstring: rows 2 and 4 are [0,0,1,1,1,0,0], row 3 is
    [0,0,1,2,1,0,0], the other rows are zero. *)
Theorem moravec_square rgb2grey h image :
  h !! image = Some square →
  moravec rgb2grey image 1 h = Ok (length h) (h ++ [square_response]).
Proof.
  intros Hh.
  destruct (moravec_returns rgb2grey h image square 7 7 1)
    as (res & -> & Hres & Hcells); [done | by split | | lia |].
  { unfold fits_int, C.INT_MAX. lia. }
  do 3 f_equal. apply (image2d_ext _ _ 7 7); [done | by split | lia |].
  intros r c Hr Hc. rewrite Hcells by done.
  assert (∀ n, 0 ≤ n < 7 → n = 0 ∨ n = 1 ∨ n = 2 ∨ n = 3 ∨ n = 4 ∨ n = 5 ∨ n = 6)
    as Hcase by lia.
  destruct (Hcase r Hr) as [-> | [-> | [-> | [-> | [-> | [-> | ->]]]]]];
    destruct (Hcase c Hc) as [-> | [-> | [-> | [-> | [-> | [-> | ->]]]]]];
    vm_compute; reflexivity.
Qed.

Lemma moravec_square_witness :
  moravec first_channel 0%nat 1 [square] = Ok 1%nat ([square] ++ [square_response]).
Proof. apply (moravec_square first_channel [square] 0%nat). reflexivity. Defined.

(** C3, as amended.  A block size of zero is not rejected: on a
    two-dimensional image (sizes within the [int] range) the call returns
    a map of the shape of the image, and every cell of it holds
    [DBL_MAX]. *)
Theorem moravec_block_size_zero rgb2grey h image arr rows cols :
  h !! image = Some arr → image2d arr rows cols → fits_int rows cols 0 →
  ∃ res, moravec rgb2grey image 0 h = Ok (length h) (h ++ [res]) ∧
         image2d res rows cols ∧
         ∀ r c, 0 ≤ r < rows → 0 ≤ c < cols → at2 res r c = Some C.DBL_MAX.
Proof.
  intros Hh Himg Hfit.
  destruct (moravec_returns rgb2grey h image arr rows cols 0)
    as (res & Hrun & Hres & Hcells); [done.. |].
  exists res. split_and!; [done..|].
  intros r c Hr Hc. rewrite Hcells by done.
  rewrite bool_decide_eq_true_2 by (unfold interior; lia).
  unfold response. replace (candidates 0 r c) with (@nil (Z * Z)); [done|].
  symmetry. apply elem_of_nil_inv. intros [br bc] Hin%elem_of_candidates. lia.
Qed.

Lemma moravec_block_size_zero_witness :
  ∃ res, moravec first_channel 0%nat 0 [pixel] = Ok 1%nat ([pixel] ++ [res]) ∧
         image2d res 1 1 ∧
         ∀ r c, 0 ≤ r < 1 → 0 ≤ c < 1 → at2 res r c = Some C.DBL_MAX.
Proof.
  apply (moravec_block_size_zero first_channel [pixel] 0%nat pixel 1 1).
  - reflexivity.
  - split; reflexivity.
  - unfold fits_int, C.INT_MAX. lia.
Defined.

(** C3 as stated fails: with block size 0 on a 1 x 1 image the call is
    not rejected, it returns a map. *)
Lemma block_size_zero_not_rejected :
  moravec first_channel 0%nat 0 [pixel] =
    Ok 1%nat [pixel; {| shape := [1; 1]; data := [C.DBL_MAX] |}] ∧
  ¬ ∃ e h', moravec first_channel 0%nat 0 [pixel] = Raise e h'.
Proof. split; [reflexivity|]. intros (e & h' & Hrun). vm_compute in Hrun. discriminate. Qed.

(** C4 (the code does not do this).  An image with a third dimension is
    handed to [rgb2grey], but the grey image is overwritten by the image
    itself in the next line, whose three dimensions the typed buffer
    refuses: the call raises, and no response is computed. *)
Theorem moravec_rgb_raises rgb2grey h image arr b :
  h !! image = Some arr → ndim arr = 3%nat →
  ∃ e h', moravec rgb2grey image b h = Raise e h'.
Proof. apply moravec_3d. Qed.

Lemma moravec_rgb_raises_witness :
  ∃ e h', moravec first_channel 0%nat 1 [rgb_pixel] = Raise e h'.
Proof. apply (moravec_rgb_raises first_channel [rgb_pixel] 0%nat rgb_pixel 1); reflexivity. Defined.

(** C5, as amended.  On a two-dimensional image, for [b >= 1] and sizes
    within the [int] range ([rows], [cols], [rows * cols] and [2b] at
    most [INT_MAX]), the call returns a map of the shape of the image in
    which every cell outside of the interior range
    [2b, rows - 2b) x [2b, cols - 2b) is zero. *)
Theorem moravec_border_zero rgb2grey h image arr rows cols b :
  h !! image = Some arr → image2d arr rows cols → fits_int rows cols b → 1 ≤ b →
  ∃ res, moravec rgb2grey image b h = Ok (length h) (h ++ [res]) ∧
         shape res = shape arr ∧ length (data res) = length (data arr) ∧
         ∀ r c, 0 ≤ r < rows → 0 ≤ c < cols → ¬ interior rows cols b r c →
           at2 res r c = Some 0%float.
Proof.
  intros Hh Himg Hfit Hb.
  destruct (moravec_returns rgb2grey h image arr rows cols b)
    as (res & Hrun & [Hs Hl] & Hcells); [done.. | lia |].
  exists res. destruct Himg as [Hs' Hl']. split_and!; [done | congruence | lia |].
  intros r c Hr Hc Hint. rewrite Hcells by done. by rewrite bool_decide_eq_false_2.
Qed.

Lemma moravec_border_zero_witness :
  ∃ res, moravec first_channel 0%nat 1 [square] = Ok 1%nat ([square] ++ [res]) ∧
         shape res = shape square ∧ length (data res) = length (data square) ∧
         ∀ r c, 0 ≤ r < 7 → 0 ≤ c < 7 → ¬ interior 7 7 1 r c →
           at2 res r c = Some 0%float.
Proof.
  apply (moravec_border_zero first_channel [square] 0%nat square 7 7 1).
  - reflexivity.
  - split; reflexivity.
  - unfold fits_int, C.INT_MAX. lia.
  - lia.
Defined.

(** C5 as stated fails for a block size whose double is no [int]: with
    [b = 2 ^ 30] on a 1 x 1 image, [2 * block_size] overflows and the
    call does not return a map whose border cell [(0, 0)] is zero. *)
Lemma huge_block_size_no_border :
  1 ≤ 2 ^ 30 ∧ ¬ interior 1 1 (2 ^ 30) 0 0 ∧
  ¬ ∃ out h' res,
      moravec first_channel 0%nat (2 ^ 30) [pixel] = Ok out h' ∧
      h' !! out = Some res ∧ shape res = shape pixel ∧ at2 res 0 0 = Some 0%float.
Proof.
  split_and!; [lia | unfold interior; lia |].
  intros (out & h' & res & Hrun & _). vm_compute in Hrun. discriminate.
Qed.



(** C7, as amended.  When the two-dimensional image has fewer than
    [4b + 1] rows or fewer than [4b + 1] columns, for [b >= 1] and
    [rows], [cols] and [2b] at most [INT_MAX], the interior range is
    empty, and the call returns, without raising, an all-zero map of the
    shape of the image. *)
Theorem moravec_small_image rgb2grey h image arr rows cols b :
  h !! image = Some arr → shape arr = [rows; cols] →
  0 ≤ rows ≤ C.INT_MAX → 0 ≤ cols ≤ C.INT_MAX → 1 ≤ b → 2 * b ≤ C.INT_MAX →
  rows < 4 * b + 1 ∨ cols < 4 * b + 1 →
  (∀ r c, ¬ interior rows cols b r c) ∧
  moravec rgb2grey image b h = Ok (length h) (h ++ [zeros_like arr]).
Proof.
  intros Hh Hs Hrows Hcols Hb H2b Hsmall. destruct int_min_max as [Hmin Hmax].
  split; [unfold interior; lia|].
  rewrite (moravec_2d rgb2grey h image arr rows cols b)
    by (done || apply in_int_ok; lia).
  by rewrite moravec_loops_small by (done || lia).
Qed.

Lemma moravec_small_image_witness :
  (∀ r c, ¬ interior 4 9 1 r c) ∧
  moravec first_channel 0%nat 1 [{| shape := [4; 9]; data := replicate 36 1%float |}] =
    Ok 1%nat ([{| shape := [4; 9]; data := replicate 36 1%float |}] ++
              [zeros_like {| shape := [4; 9]; data := replicate 36 1%float |}]).
Proof.
  apply (moravec_small_image first_channel
    [{| shape := [4; 9]; data := replicate 36 1%float |}] 0%nat
    {| shape := [4; 9]; data := replicate 36 1%float |} 4 9 1);
    try reflexivity; unfold C.INT_MAX; lia.
Defined.

(** C7 as stated fails for a block size whose double is no [int]: the
    1 x 1 image is smaller than [4b + 1] for [b = 2 ^ 30], but
    [2 * block_size] overflows and the call does not return. *)
Lemma huge_block_size_no_return :
  1 ≤ 2 ^ 30 ∧ 1 < 4 * 2 ^ 30 + 1 ∧
  ¬ ∃ out h', moravec first_channel 0%nat (2 ^ 30) [pixel] = Ok out h'.
Proof.
  split_and!; [lia | lia |].
  intros (out & h' & Hrun). vm_compute in Hrun. discriminate.
Qed.

(** C8, as amended.  On a two-dimensional image whose intensities are all
    zero ([0.0] or [-0.0]), for [b >= 1] and sizes within the [int]
    range ([rows], [cols], [rows * cols] and [2b] at most [INT_MAX]),
    the returned map is all zero. *)
Theorem moravec_zero_image rgb2grey h image arr rows cols b :
  h !! image = Some arr → image2d arr rows cols → fits_int rows cols b →
  zero_image arr = true → 1 ≤ b →
  moravec rgb2grey image b h = Ok (length h) (h ++ [zeros_like arr]).
Proof.
  intros Hh Himg Hfit Hzero Hb.
  destruct (moravec_returns rgb2grey h image arr rows cols b)
    as (res & -> & Hres & Hcells); [done.. | lia |].
  do 3 f_equal. apply (image2d_ext _ _ rows cols); [done | | destruct Hfit; lia |].
  { destruct Himg as [Hs Hl]. split; [done|]. simpl. by rewrite length_replicate. }
  intros r c Hr Hc. rewrite Hcells by done.
  rewrite response_zero by done. rewrite (at2_lookup _ rows cols); [|..|done|done].
  - destruct (index_bounds rows cols r c Hr Hc).
    simpl. rewrite lookup_replicate_2; [by case_bool_decide|]. destruct Himg. lia.
  - destruct Himg as [Hs Hl]. split; [done|]. simpl. by rewrite length_replicate.
Qed.

Lemma moravec_zero_image_witness :
  moravec first_channel 0%nat 1 [blank] = Ok 1%nat ([blank] ++ [zeros_like blank]).
Proof.
  apply (moravec_zero_image first_channel [blank] 0%nat blank 5 5 1).
  - reflexivity.
  - split; reflexivity.
  - unfold fits_int, C.INT_MAX. lia.
  - reflexivity.
  - lia.
Defined.

(** C8 as stated fails for a block size whose double is no [int]: on the
    all-zero 1 x 1 image with [b = 2 ^ 30], [2 * block_size] overflows
    and the call does not return an all-zero map. *)
Lemma huge_block_size_zero_image :
  1 ≤ 2 ^ 30 ∧ zero_image pixel = true ∧
  ¬ ∃ out h' res,
      moravec first_channel 0%nat (2 ^ 30) [pixel] = Ok out h' ∧
      h' !! out = Some res ∧ ∀ x, x ∈ data res → is_zero x = true.
Proof.
  split_and!; [lia | reflexivity |].
  intros (out & h' & res & Hrun & _). vm_compute in Hrun. discriminate.
Qed.

(** C9, as amended.  On a two-dimensional image, for a block size
    [b >= 0] and sizes within the [int] range, the call returns a newly
    allocated map and leaves every array of the caller, the input image
    among them, as it was; and whatever the image and the block size, a
    call that returns or raises has left the arrays of the caller as
    they were. *)
Theorem moravec_input_unchanged rgb2grey h image arr rows cols b :
  h !! image = Some arr → image2d arr rows cols → fits_int rows cols b → 0 ≤ b →
  (∃ out h', moravec rgb2grey image b h = Ok out h' ∧ h !! out = None ∧
             ∀ p a, h !! p = Some a → h' !! p = Some a) ∧
  (∀ image' b' h', final_heap (moravec rgb2grey image' b' h) = Some h' →
                   ∀ p a, h !! p = Some a → h' !! p = Some a).
Proof.
  intros Hh Himg Hfit Hb. split.
  - destruct (moravec_returns rgb2grey h image arr rows cols b)
      as (res & Hrun & _); [done..|].
    exists (length h), (h ++ [res]). split_and!; [done | |].
    + by apply lookup_ge_None_2.
    + intros p a Hp. by apply lookup_app_l_Some.
  - intros image' b' h' [new ->]%moravec_frame p a Hp. by apply lookup_app_l_Some.
Qed.

Lemma moravec_input_unchanged_witness :
  (∃ out h', moravec first_channel 0%nat 1 [square] = Ok out h' ∧
             [square] !! out = None ∧
             ∀ p a, [square] !! p = Some a → h' !! p = Some a) ∧
  (∀ image' b' h', final_heap (moravec first_channel image' b' [square]) = Some h' →
                   ∀ p a, [square] !! p = Some a → h' !! p = Some a).
Proof.
  apply (moravec_input_unchanged first_channel [square] 0%nat square 7 7 1).
  - reflexivity.
  - split; reflexivity.
  - unfold fits_int, C.INT_MAX. lia.
  - lia.
Defined.

(** C9 as stated fails for a negative block size: with [b = -1] on
    [square] the first cell the loops write is [out_data[-16]], before
    the start of the output buffer, and the call has no final heap in
    which the input could be said to be as it was. *)
Lemma negative_block_size_writes_outside :
  ((2 * -1) * 7 + 2 * -1)%cint = Some (-16) ∧
  store [square; zeros_like square] 1%nat (Some (-16)) C.DBL_MAX = None ∧
  ¬ ∃ h', final_heap (moravec first_channel 0%nat (-1) [square]) = Some h' ∧
          ∀ p a, [square] !! p = Some a → h' !! p = Some a.
Proof.
  split_and!; [reflexivity | reflexivity |].
  intros (h' & Hrun & _). vm_compute in Hrun. discriminate.
Qed.

(** C10, as amended.  For [b >= 1] the four diagonal neighbours of a
    pixel are candidate shifts, so that the running minimum of an
    interior pixel is updated at least once; on a two-dimensional image
    of finite doubles (the sizes within the [int] range) a cell of the
    returned map holds [DBL_MAX] only if it is an interior cell none of
    whose candidate shifts has a sum of squared differences below
    [DBL_MAX]. *)
Theorem moravec_sentinel rgb2grey h image arr rows cols b :
  h !! image = Some arr → image2d arr rows cols → fits_int rows cols b →
  finite_image arr = true → 1 ≤ b →
  (∀ r c, (r - 1, c - 1) ∈ candidates b r c ∧ (r - 1, c + 1) ∈ candidates b r c ∧
          (r + 1, c - 1) ∈ candidates b r c ∧ (r + 1, c + 1) ∈ candidates b r c) ∧
  ∃ res, moravec rgb2grey image b h = Ok (length h) (h ++ [res]) ∧
         ∀ r c, 0 ≤ r < rows → 0 ≤ c < cols →
           at2 res r c = Some C.DBL_MAX →
           interior rows cols b r c ∧
           ∀ s, s ∈ candidates b r c → (SSD arr b r c s <? C.DBL_MAX)%float = false.
Proof.
  intros Hh Himg Hfit Hfin Hb. split; [intros; by apply diagonal_candidates|].
  destruct (moravec_returns rgb2grey h image arr rows cols b)
    as (res & Hrun & Hres & Hcells); [done.. | lia |].
  exists res. split; [done|].
  intros r c Hr Hc. rewrite Hcells by done. intros [= Hm].
  case_bool_decide as Hint; cycle 1.
  { apply (f_equal Prim2SF) in Hm. vm_compute in Hm. discriminate. }
  split; [done|]. intros s Hs.
  destruct (response_is_min arr b r c Hfin) as [[_ Hle] _].
  apply leb_not_ltb. rewrite <-Hm. apply Hle. right. by apply list_elem_of_fmap_2.
Qed.

Lemma moravec_sentinel_witness :
  (∀ r c, (r - 1, c - 1) ∈ candidates 1 r c ∧ (r - 1, c + 1) ∈ candidates 1 r c ∧
          (r + 1, c - 1) ∈ candidates 1 r c ∧ (r + 1, c + 1) ∈ candidates 1 r c) ∧
  ∃ res, moravec first_channel 0%nat 1 [spike] = Ok 1%nat ([spike] ++ [res]) ∧
         ∀ r c, 0 ≤ r < 5 → 0 ≤ c < 5 →
           at2 res r c = Some C.DBL_MAX →
           interior 5 5 1 r c ∧
           ∀ s, s ∈ candidates 1 r c → (SSD spike 1 r c s <? C.DBL_MAX)%float = false.
Proof.
  apply (moravec_sentinel first_channel [spike] 0%nat spike 5 5 1).
  - reflexivity.
  - split; reflexivity.
  - unfold fits_int, C.INT_MAX. lia.
  - reflexivity.
  - lia.
Defined.

(** C10 as stated fails on [spike]: the centre of the returned map
    holds [DBL_MAX]. *)
Lemma spike_centre_holds_sentinel :
  ¬ ∀ out h' res,
      moravec first_channel 0%nat 1 [spike] = Ok out h' → h' !! out = Some res →
      C.DBL_MAX ∉ data res.
Proof.
  intros Hclaim.
  apply (Hclaim 1%nat _ _ eq_refl eq_refl).
  apply (list_elem_of_lookup_2 _ 12%nat). reflexivity.
Qed.

(** * Further properties of [moravec] *)

(** ** More on binary64 *)

Lemma is_finite_sf x : is_finite x = sf_finite (Prim2SF x).
Proof.
  unfold is_finite, is_nan, is_infinity.
  rewrite !FloatAxioms.eqb_spec, FloatAxioms.abs_spec.
  change (Prim2SF infinity) with (S754_infinity false). unfold SFeqb.
  destruct (Prim2SF x) as [[]|[]| |s m e] eqn:E; try done.
  by rewrite (SFcompare_refl (S754_finite s m e)).
Qed.

Lemma SFsub_diag prec emax x :
  sf_finite x = true → SFsub prec emax x x = S754_zero false.
Proof.
  destruct x as [[]|[]| |s m e]; try done; intros _; simpl.
  by rewrite Z.sub_diag.
Qed.

Lemma SFmul_square_signed prec emax x :
  sf_not_nan x = true → sf_signed false (SFmul prec emax x x) = true.
Proof.
  destruct x as [sx|sx| |sx mx ex]; try done; intros _; simpl.
  - by destruct sx.
  - by destruct sx.
  - rewrite Bool.xorb_nilpotent. by apply binary_round_aux_signed.
Qed.

Lemma SFadd_signed prec emax x y :
  sf_signed false x = true → sf_signed false y = true →
  sf_signed false (SFadd prec emax x y) = true.
Proof.
  destruct x as [[]|[]| |[] mx ex], y as [[]|[]| |[] my ey]; try done; intros _ _.
  simpl. apply binary_round_signed.
Qed.

Lemma SFleb_zero_signed x :
  sf_signed false x = true → SFleb x (S754_zero false) = true → x = S754_zero false.
Proof. by destruct x as [[]|[]| |[] m e]. Qed.

Lemma SFleb_finite_bound x m e :
  sf_nonneg x = true → SFleb x (S754_finite false m e) = true → sf_finite x = true.
Proof. by destruct x as [[]|[]| |[] m' e']. Qed.

Lemma sub_diag x : is_finite x = true → (x - x)%float = 0%float.
Proof.
  rewrite is_finite_sf. intros Hx. apply Prim2SF_inj.
  rewrite FloatAxioms.sub_spec. by apply SFsub_diag.
Qed.

Lemma leb_DBL_MAX_finite x :
  (0 <=? x)%float = true → (x <=? C.DBL_MAX)%float = true → is_finite x = true.
Proof.
  rewrite nonneg_spec, FloatAxioms.leb_spec, is_finite_sf.
  change (Prim2SF C.DBL_MAX) with (S754_finite false 9007199254740991 971).
  apply SFleb_finite_bound.
Qed.

Lemma sqr_sub_signed x y :
  is_finite x = true → is_finite y = true →
  sf_signed false (Prim2SF (C.sqr (x - y))) = true.
Proof.
  intros Hx%is_finite_spec Hy%is_finite_spec.
  unfold C.sqr. rewrite FloatAxioms.mul_spec, FloatAxioms.sub_spec.
  apply SFmul_square_signed, SFsub_finite; done.
Qed.

Lemma leb_zero_signed x :
  sf_signed false (Prim2SF x) = true → (x <=? 0)%float = true → x = 0%float.
Proof.
  rewrite FloatAxioms.leb_spec. change (Prim2SF 0) with (S754_zero false).
  intros Hs Hle. apply Prim2SF_inj. by apply SFleb_zero_signed.
Qed.

(** ** More on the response *)

Lemma foldl_ext_in {A S} (f g : S → A → S) l (s : S) :
  (∀ s x, x ∈ l → f s x = g s x) → foldl f s l = foldl g s l.
Proof.
  revert s. induction l as [|x l IH]; intros s Hfg; simpl; [done|].
  rewrite Hfg by left. apply IH. intros. apply Hfg. by right.
Qed.

Lemma foldl_range_shift {S} (f : S → Z → S) lo hi d (s : S) :
  foldl f s (range (lo + d) (hi + d)) = foldl (λ s x, f s (x + d)) s (range lo hi).
Proof.
  unfold range. replace (hi + d - (lo + d)) with (hi - lo) by lia.
  replace (lo + d) with (d + lo) by lia. rewrite <-fmap_add_seqZ.
  generalize (seqZ lo (hi - lo)). intros l. revert s.
  induction l as [|x l IH]; intros s; simpl; [done|].
  rewrite IH. by rewrite (Z.add_comm d x).
Qed.

Lemma elem_of_window b mr mc :
  (mr, mc) ∈ window b ↔ - b ≤ mr ≤ b ∧ - b ≤ mc ≤ b.
Proof. unfold window. rewrite elem_of_pairs, !elem_of_range. simpl. lia. Qed.

(** The sum of squared differences reads the image within [b] of the
    pixel and of the shift only. *)
Lemma SSD_translate arr arr' b r c dr dc s :
  (∀ i j, r - 2 * b ≤ i ≤ r + 2 * b → c - 2 * b ≤ j ≤ c + 2 * b →
          px arr' i j = px arr (i + dr) (j + dc)) →
  r - b ≤ s.1 ≤ r + b → c - b ≤ s.2 ≤ c + b →
  SSD arr' b r c s = SSD arr b (r + dr) (c + dc) (s.1 + dr, s.2 + dc).
Proof.
  intros Hpx Hs1 Hs2. unfold SSD. apply foldl_ext_in.
  intros acc [mr mc] Hoff%elem_of_window. simpl.
  rewrite !Hpx by lia. do 4 f_equal; lia.
Qed.

Lemma response_translate arr arr' b r c dr dc :
  (∀ i j, r - 2 * b ≤ i ≤ r + 2 * b → c - 2 * b ≤ j ≤ c + 2 * b →
          px arr' i j = px arr (i + dr) (j + dc)) →
  response arr' b r c = response arr b (r + dr) (c + dc).
Proof.
  intros Hpx. unfold response, candidates.
  rewrite !foldl_filter, !foldl_pairs.
  replace (r + dr - b) with (r - b + dr) by lia.
  replace (r + dr + b + 1) with (r + b + 1 + dr) by lia.
  replace (c + dc - b) with (c - b + dc) by lia.
  replace (c + dc + b + 1) with (c + b + 1 + dc) by lia.
  rewrite foldl_range_shift. apply foldl_ext_in.
  intros m br Hbr%elem_of_range.
  rewrite foldl_range_shift. apply foldl_ext_in.
  intros m' bc Hbc%elem_of_range. simpl.
  rewrite (SSD_translate arr arr' b r c dr dc (br, bc)) by (done || simpl; lia).
  simpl. repeat case_decide; done || lia.
Qed.

Lemma SSD_signed arr b r c s :
  finite_image arr = true → sf_signed false (Prim2SF (SSD arr b r c s)) = true.
Proof.
  intros Hfin. unfold SSD.
  assert (sf_signed false (Prim2SF 0) = true) as Hacc by done. revert Hacc.
  generalize 0%float. induction (window b) as [|off l IH]; intros acc Hacc; [done|].
  simpl. apply IH. rewrite FloatAxioms.add_spec.
  apply SFadd_signed; [done|]. apply sqr_sub_signed; by apply px_finite.
Qed.

(** Equal windows have a sum of squared differences of zero. *)
Lemma SSD_equal_windows arr b r c s :
  finite_image arr = true →
  (∀ mr mc, - b ≤ mr ≤ b → - b ≤ mc ≤ b →
            px arr (r + mr) (c + mc) = px arr (s.1 + mr) (s.2 + mc)) →
  SSD arr b r c s = 0%float.
Proof.
  intros Hfin Heq. unfold SSD.
  assert (∀ off, off ∈ window b →
    px arr (r + off.1) (c + off.2) = px arr (s.1 + off.1) (s.2 + off.2)) as Hwin.
  { intros [mr mc] Hoff%elem_of_window. apply Heq; simpl; lia. }
  clear Heq. induction (window b) as [|off l IH]; [done|].
  simpl. rewrite Hwin by left. rewrite sub_diag by by apply px_finite.
  apply IH. intros. apply Hwin. by right.
Qed.

(** ** When the call returns *)

Lemma store_fresh_shape h z i x hc :
  store (h ++ [z]) (length h) i x = Some hc →
  ∃ z', hc = h ++ [z'] ∧ shape z' = shape z ∧ length (data z') = length (data z).
Proof.
  unfold store. intros (i' & -> & Hrun)%bind_Some.
  rewrite list_lookup_middle in Hrun by done. simpl in Hrun.
  case_bool_decide; [|done]. injection Hrun as <-. eexists.
  rewrite <-(Nat.add_0_r (length h)) at 1. rewrite insert_app_r.
  split_and!; [done..|]. apply length_insert.
Qed.

Lemma moravec_loops_frame_shape image h z rows cols b hc :
  moravec_loops image (length h) rows cols b (h ++ [z]) = Some hc →
  ∃ z', hc = h ++ [z'] ∧ shape z' = shape z ∧ length (data z') = length (data z).
Proof.
  unfold moravec_loops.
  intros (lo & _ & (hi & _ & Hrun)%bind_Some)%bind_Some.
  eapply (for_in_preserves (λ hc, ∃ z', hc = h ++ [z'] ∧ shape z' = shape z ∧
                                       length (data z') = length (data z))), Hrun;
    [|by eauto].
  clear. intros r s s' Hs (lo & _ & (hi & _ & Hrun)%bind_Some)%bind_Some.
  eapply (for_in_preserves (λ hc, ∃ z', hc = h ++ [z'] ∧ shape z' = shape z ∧
                                       length (data z') = length (data z))), Hrun;
    [|done].
  clear. intros c s s' (z' & -> & Hs & Hl) (m & _ & Hrun)%bind_Some.
  apply store_fresh_shape in Hrun as (z'' & -> & Hs' & Hl').
  exists z''. split_and!; [done | congruence | congruence].
Qed.

Lemma moravec_Ok_inv rgb2grey h image b out h' :
  moravec rgb2grey image b h = Ok out h' →
  ∃ arr rows cols res,
    h !! image = Some arr ∧ shape arr = [rows; cols] ∧
    C.in_int rows = true ∧ C.in_int cols = true ∧ C.in_int b = true ∧
    out = length h ∧ h' = h ++ [res] ∧
    shape res = [rows; cols] ∧ length (data res) = length (data arr).
Proof.
  intros Hrun.
  destruct (C.in_int b) eqn:Hb; cycle 1.
  { unfold moravec, bind, as_int in Hrun. by rewrite Hb in Hrun. }
  destruct (h !! image) as [arr|] eqn:Hh; cycle 1.
  { unfold moravec, bind, as_int, deref in Hrun. rewrite Hb in Hrun.
    simpl in Hrun. by rewrite Hh in Hrun. }
  destruct (decide (ndim arr = 3%nat)) as [H3|H3].
  { destruct (moravec_3d rgb2grey h image arr b Hh H3) as (e & h1 & Hraise).
    congruence. }
  exists arr.
  unfold moravec, acquire_2d, img_as_float, ascontiguousarray, as_int,
    shape_item, alloc, run_loops, deref, bind, ret, raise in Hrun.
  rewrite Hb in Hrun. simpl in Hrun. rewrite Hh in Hrun. unfold ndim in *.
  destruct (shape arr) as [|rows [|cols [|d2 [|]]]] eqn:Hs; simpl in Hrun;
    try done; repeat (case_match; simplify_eq/=); try done.
  all: repeat match goal with
         | H : bool_decide _ = true |- _ => apply bool_decide_eq_true in H
         end; simpl in *; try discriminate;
       try (match goal with H : length (shape _) = 2%nat |- _ =>
              rewrite Hs in H; discriminate end).
  match goal with H : moravec_loops _ _ _ _ _ _ = Some _ |- _ =>
    apply moravec_loops_frame_shape in H as (res & -> & Hs' & Hl') end.
  simpl in *. rewrite length_replicate in Hl'.
  eexists _, _, res. split_and!; done || congruence.
Qed.

Lemma at2_px arr arr' i j i' j' : at2 arr i j = at2 arr' i' j' → px arr i j = px arr' i' j'.
Proof. unfold px. by intros ->. Qed.

Lemma uniform_image_spec arr x y :
  uniform_image arr = true → x ∈ data arr → y ∈ data arr → x = y.
Proof.
  unfold uniform_image. destruct (data arr) as [|v l]; [by intros _ ?%elem_of_nil|].
  rewrite forallb_forall. intros Hall Hx Hy.
  assert (∀ z, z ∈ v :: l → z = v) as Hv.
  { intros z [-> | Hz]%elem_of_cons; [done|]. symmetry.
    by apply FloatAxioms.Leibniz.eqb_spec, Hall, list_elem_of_In. }
  by rewrite (Hv x), (Hv y).
Qed.

(** ** Extra properties *)

(** X1.  A call returns only for a block size that is a C [int] and an
    image of two dimensions that are C [int]s; what it returns is a new
    object, added at the end of the heap, of the shape and the size of
    the image. *)
Theorem moravec_returns_only_2d rgb2grey h image b out h' :
  moravec rgb2grey image b h = Ok out h' →
  ∃ arr rows cols res,
    h !! image = Some arr ∧ shape arr = [rows; cols] ∧
    C.in_int rows = true ∧ C.in_int cols = true ∧ C.in_int b = true ∧
    out = length h ∧ h' = h ++ [res] ∧
    shape res = [rows; cols] ∧ length (data res) = length (data arr).
Proof. apply moravec_Ok_inv. Qed.

Lemma moravec_returns_only_2d_witness :
  ∃ arr rows cols res,
    [square] !! 0%nat = Some arr ∧ shape arr = [rows; cols] ∧
    C.in_int rows = true ∧ C.in_int cols = true ∧ C.in_int 1 = true ∧
    1%nat = length [square] ∧ [square; square_response] = [square] ++ [res] ∧
    shape res = [rows; cols] ∧ length (data res) = length (data arr).
Proof.
  apply (moravec_returns_only_2d first_channel [square] 0%nat 1 1%nat
           [square; square_response]).
  reflexivity.
Defined.

(** X2.  A negative block size (a C [int]) is not rejected: on a
    two-dimensional image the first cell the loops write lies before the
    start of the output buffer, and the call has no defined result. *)
Theorem moravec_negative_block_size rgb2grey h image arr rows cols b :
  h !! image = Some arr → shape arr = [rows; cols] →
  0 ≤ rows ≤ C.INT_MAX → 0 ≤ cols ≤ C.INT_MAX → C.INT_MIN ≤ b < 0 →
  moravec rgb2grey image b h = Undefined.
Proof. apply moravec_negative. Qed.

Lemma moravec_negative_block_size_witness :
  moravec first_channel 0%nat (-1) [square] = Undefined.
Proof.
  apply (moravec_negative_block_size first_channel [square] 0%nat square 7 7 (-1));
    try reflexivity; unfold C.INT_MIN, C.INT_MAX; lia.
Defined.

(** X3.  On an image with fewer than two dimensions (its size and the
    block size being C [int]s) the call reads [image.shape] past its end,
    unchecked: it has no defined result, and raises nothing. *)
Theorem moravec_too_few_dimensions rgb2grey h image arr b :
  h !! image = Some arr → C.in_int b = true →
  Forall (λ d, C.in_int d = true) (shape arr) → (ndim arr < 2)%nat →
  moravec rgb2grey image b h = Undefined.
Proof.
  intros Hh Hb Hdims Hnd.
  unfold moravec, as_int, shape_item, deref, bind, ret, raise.
  rewrite Hb. simpl. rewrite Hh. unfold ndim in Hnd.
  destruct (shape arr) as [|d0 [|d1 l]]; simpl in *; [done | | lia].
  apply Forall_cons in Hdims as [-> _]. done.
Qed.

Lemma moravec_too_few_dimensions_witness :
  moravec first_channel 0%nat 1 [line] = Undefined.
Proof.
  apply (moravec_too_few_dimensions first_channel [line] 0%nat line 1).
  - reflexivity.
  - reflexivity.
  - repeat constructor.
  - unfold ndim. simpl. lia.
Defined.

(** X4.  An image with more than three dimensions is refused by the
    two-dimensional buffer: the call raises [ValueError] before
    anything is allocated. *)
Theorem moravec_too_many_dimensions rgb2grey h image arr b :
  h !! image = Some arr → C.in_int b = true →
  Forall (λ d, C.in_int d = true) (shape arr) → (3 < ndim arr)%nat →
  moravec rgb2grey image b h = Raise ValueError h.
Proof.
  intros Hh Hb Hdims Hnd.
  unfold moravec, acquire_2d, img_as_float, ascontiguousarray, as_int,
    shape_item, deref, bind, ret, raise.
  rewrite Hb. simpl. rewrite Hh. unfold ndim in *.
  destruct (shape arr) as [|d0 [|d1 [|d2 [|d3 l]]]] eqn:Hs; simpl in *; try lia.
  apply Forall_cons in Hdims as [-> Hdims]. apply Forall_cons in Hdims as [-> _].
  simpl. rewrite Hh. simpl. by rewrite Hs.
Qed.

Lemma moravec_too_many_dimensions_witness :
  moravec first_channel 0%nat 1 [hypercube] = Raise ValueError [hypercube].
Proof.
  apply (moravec_too_many_dimensions first_channel [hypercube] 0%nat hypercube 1).
  - reflexivity.
  - reflexivity.
  - repeat constructor.
  - unfold ndim. simpl. lia.
Defined.

(** X5.  A block size, a number of rows or a number of columns that is
    no C [int] makes the call raise [OverflowError] before anything is
    allocated, also when the image is empty. *)
Theorem moravec_overflow rgb2grey h image arr b :
  h !! image = Some arr →
  C.in_int b = false ∨ (∃ d, d ∈ take 2 (shape arr) ∧ C.in_int d = false) →
  moravec rgb2grey image b h = Raise OverflowError h.
Proof.
  intros Hh Hbad.
  unfold moravec, as_int, shape_item, deref, bind, ret, raise.
  destruct (C.in_int b) eqn:Hb; [|done].
  destruct Hbad as [? | (d & Hd & Hbad)]; [done|]. simpl. rewrite Hh.
  destruct (shape arr) as [|d0 [|d1 l]]; simpl in *.
  - by apply elem_of_nil in Hd.
  - apply list_elem_of_singleton in Hd as ->. by rewrite Hbad.
  - destruct (C.in_int d0) eqn:H0; [|done]. simpl.
    apply elem_of_cons in Hd as [-> | Hd]; [congruence|].
    apply list_elem_of_singleton in Hd as ->. by rewrite Hbad.
Qed.

Lemma moravec_overflow_witness :
  moravec first_channel 0%nat 1 [tall_empty] = Raise OverflowError [tall_empty].
Proof.
  apply (moravec_overflow first_channel [tall_empty] 0%nat tall_empty 1).
  - reflexivity.
  - right. exists (2 ^ 31). split; [left | reflexivity].
Defined.

Lemma response_equal_windows arr b r c s :
  finite_image arr = true → s ∈ candidates b r c →
  (∀ mr mc, - b ≤ mr ≤ b → - b ≤ mc ≤ b →
            px arr (r + mr) (c + mc) = px arr (s.1 + mr) (s.2 + mc)) →
  response arr b r c = 0%float.
Proof.
  intros Hfin Hs Hwin.
  destruct (response_is_min arr b r c Hfin) as [[Hin Hle] _].
  assert ((response arr b r c <=? 0)%float = true) as Hzero.
  { rewrite <-(SSD_equal_windows arr b r c s) by done.
    apply Hle. right. by apply list_elem_of_fmap_2. }
  apply leb_zero_signed; [|done].
  apply elem_of_cons in Hin as [Hmax | (s' & -> & _)%list_elem_of_fmap].
  - rewrite Hmax in Hzero. vm_compute in Hzero. discriminate.
  - by apply SSD_signed.
Qed.

Lemma px_elem_of arr rows cols r c :
  image2d arr rows cols → 0 ≤ r < rows → 0 ≤ c < cols → px arr r c ∈ data arr.
Proof.
  intros Himg Hr Hc. eapply list_elem_of_lookup_2.
  rewrite <-(at2_lookup arr rows cols) by done. by apply (at2_is_Some arr rows cols).
Qed.

Ltac enum_0_4 i :=
  let H := fresh in
  assert (i = 0 ∨ i = 1 ∨ i = 2 ∨ i = 3 ∨ i = 4) as H by lia;
  destruct H as [-> | [-> | [-> | [-> | ->]]]].

(** X6.  The cell of an interior pixel depends on the image within [2b]
    of the pixel only: two images of one shape that agree there give the
    same cell, whatever they hold elsewhere and whatever the heaps. *)
Theorem moravec_local rgb2grey h1 h2 image1 image2 arr1 arr2 rows cols b r c :
  h1 !! image1 = Some arr1 → h2 !! image2 = Some arr2 →
  image2d arr1 rows cols → image2d arr2 rows cols → fits_int rows cols b →
  0 ≤ b → interior rows cols b r c →
  (∀ i j, r - 2 * b ≤ i ≤ r + 2 * b → c - 2 * b ≤ j ≤ c + 2 * b →
          at2 arr1 i j = at2 arr2 i j) →
  ∃ res1 res2,
    moravec rgb2grey image1 b h1 = Ok (length h1) (h1 ++ [res1]) ∧
    moravec rgb2grey image2 b h2 = Ok (length h2) (h2 ++ [res2]) ∧
    at2 res1 r c = at2 res2 r c.
Proof.
  intros Hh1 Hh2 Himg1 Himg2 Hfit Hb Hint Hagree.
  destruct (moravec_returns rgb2grey h1 image1 arr1 rows cols b)
    as (res1 & Hrun1 & _ & Hcells1); [done..|].
  destruct (moravec_returns rgb2grey h2 image2 arr2 rows cols b)
    as (res2 & Hrun2 & _ & Hcells2); [done..|].
  exists res1, res2. split_and!; [done..|].
  rewrite Hcells1, Hcells2 by (unfold interior in Hint; lia).
  rewrite bool_decide_eq_true_2 by done. f_equal.
  rewrite <-(Z.add_0_r r), <-(Z.add_0_r c) at 2.
  apply response_translate. intros i j Hi Hj.
  rewrite !Z.add_0_r. by apply at2_px, Hagree.
Qed.

Lemma moravec_local_witness :
  ∃ res1 res2,
    moravec first_channel 0%nat 1 [square] = Ok (length [square]) ([square] ++ [res1]) ∧
    moravec first_channel 0%nat 1 [square_marked] =
      Ok (length [square_marked]) ([square_marked] ++ [res2]) ∧
    at2 res1 2 2 = at2 res2 2 2.
Proof.
  apply (moravec_local first_channel [square] [square_marked] 0%nat 0%nat
           square square_marked 7 7 1 2 2).
  - reflexivity.
  - reflexivity.
  - split; reflexivity.
  - split; reflexivity.
  - unfold fits_int, C.INT_MAX. lia.
  - lia.
  - unfold interior. lia.
  - intros i j Hi Hj. enum_0_4 i; enum_0_4 j; reflexivity.
Defined.

(** X7.  The response moves with the image: when an image agrees, within
    [2b] of a pixel [(r, c)], with another image moved by [(dr, dc)] (a
    crop, for one), and both pixels are interior, the cell at [(r, c)]
    of the one map is the cell at [(r + dr, c + dc)] of the other. *)
Theorem moravec_translation rgb2grey h h' image image' arr arr'
    rows cols rows' cols' b r c dr dc :
  h !! image = Some arr → h' !! image' = Some arr' →
  image2d arr rows cols → image2d arr' rows' cols' →
  fits_int rows cols b → fits_int rows' cols' b → 0 ≤ b →
  interior rows' cols' b r c → interior rows cols b (r + dr) (c + dc) →
  (∀ i j, r - 2 * b ≤ i ≤ r + 2 * b → c - 2 * b ≤ j ≤ c + 2 * b →
          at2 arr' i j = at2 arr (i + dr) (j + dc)) →
  ∃ res res',
    moravec rgb2grey image b h = Ok (length h) (h ++ [res]) ∧
    moravec rgb2grey image' b h' = Ok (length h') (h' ++ [res']) ∧
    at2 res' r c = at2 res (r + dr) (c + dc).
Proof.
  intros Hh Hh' Himg Himg' Hfit Hfit' Hb Hint' Hint Hagree.
  destruct (moravec_returns rgb2grey h image arr rows cols b)
    as (res & Hrun & _ & Hcells); [done..|].
  destruct (moravec_returns rgb2grey h' image' arr' rows' cols' b)
    as (res' & Hrun' & _ & Hcells'); [done..|].
  exists res, res'. split_and!; [done..|].
  rewrite Hcells' by (unfold interior in Hint'; lia).
  rewrite Hcells by (unfold interior in Hint; lia).
  rewrite !bool_decide_eq_true_2 by done. f_equal.
  apply response_translate. intros i j Hi Hj. by apply at2_px, Hagree.
Qed.

Lemma moravec_translation_witness :
  ∃ res res',
    moravec first_channel 0%nat 1 [square] = Ok (length [square]) ([square] ++ [res]) ∧
    moravec first_channel 0%nat 1 [square_crop] =
      Ok (length [square_crop]) ([square_crop] ++ [res']) ∧
    at2 res' 2 2 = at2 res (2 + 1) (2 + 1).
Proof.
  apply (moravec_translation first_channel [square] [square_crop] 0%nat 0%nat
           square square_crop 7 7 5 5 1 2 2 1 1).
  - reflexivity.
  - reflexivity.
  - split; reflexivity.
  - split; reflexivity.
  - unfold fits_int, C.INT_MAX. lia.
  - unfold fits_int, C.INT_MAX. lia.
  - lia.
  - unfold interior. lia.
  - unfold interior. lia.
  - intros i j Hi Hj. enum_0_4 i; enum_0_4 j; reflexivity.
Defined.

(** X8.  On an image of finite doubles every cell of the returned map is
    finite and at most [DBL_MAX]: a sum that overflows never shows as an
    infinity in the map. *)
Theorem moravec_finite rgb2grey h image arr rows cols b :
  h !! image = Some arr → image2d arr rows cols → fits_int rows cols b →
  finite_image arr = true → 0 ≤ b →
  ∃ res, moravec rgb2grey image b h = Ok (length h) (h ++ [res]) ∧
         ∀ x, x ∈ data res →
              is_finite x = true ∧ (x <=? C.DBL_MAX)%float = true.
Proof.
  intros Hh Himg Hfit Hfin Hb.
  destruct (moravec_returns rgb2grey h image arr rows cols b)
    as (res & Hrun & Hres & Hcells); [done..|].
  exists res. split; [done|].
  intros x [i Hi]%list_elem_of_lookup_1.
  destruct (cell_of_index res rows cols i x) as (r & c & Hr & Hc & Hx);
    [done | destruct Hfit; lia | done |].
  rewrite Hcells in Hx by done. injection Hx as <-.
  case_bool_decide; [|done].
  destruct (response_is_min arr b r c Hfin) as [[_ Hle] Hpos].
  assert ((response arr b r c <=? C.DBL_MAX)%float = true) as Hmax
    by (apply Hle; left).
  split; [by apply leb_DBL_MAX_finite | done].
Qed.

Lemma moravec_finite_witness :
  ∃ res, moravec first_channel 0%nat 1 [spike] = Ok (length [spike]) ([spike] ++ [res]) ∧
         ∀ x, x ∈ data res →
              is_finite x = true ∧ (x <=? C.DBL_MAX)%float = true.
Proof.
  apply (moravec_finite first_channel [spike] 0%nat spike 5 5 1).
  - reflexivity.
  - split; reflexivity.
  - unfold fits_int, C.INT_MAX. lia.
  - reflexivity.
  - lia.
Defined.

(** X9.  On an image of finite doubles, an interior pixel whose window
    equals the window at one of its candidate shifts (as along a
    diagonal line) has a response of exactly zero. *)
Theorem moravec_equal_windows rgb2grey h image arr rows cols b r c s :
  h !! image = Some arr → image2d arr rows cols → fits_int rows cols b →
  finite_image arr = true → 0 ≤ b → interior rows cols b r c →
  s ∈ candidates b r c →
  (∀ mr mc, - b ≤ mr ≤ b → - b ≤ mc ≤ b →
            at2 arr (r + mr) (c + mc) = at2 arr (s.1 + mr) (s.2 + mc)) →
  ∃ res, moravec rgb2grey image b h = Ok (length h) (h ++ [res]) ∧
         at2 res r c = Some 0%float.
Proof.
  intros Hh Himg Hfit Hfin Hb Hint Hs Hwin.
  destruct (moravec_returns rgb2grey h image arr rows cols b)
    as (res & Hrun & Hres & Hcells); [done..|].
  exists res. split; [done|].
  rewrite Hcells by (unfold interior in Hint; lia).
  rewrite bool_decide_eq_true_2 by done. f_equal.
  apply (response_equal_windows arr b r c s); [done..|].
  intros mr mc Hmr Hmc. by apply at2_px, Hwin.
Qed.

Lemma moravec_equal_windows_witness :
  ∃ res, moravec first_channel 0%nat 1 [diagonal] =
           Ok (length [diagonal]) ([diagonal] ++ [res]) ∧
         at2 res 2 2 = Some 0%float.
Proof.
  apply (moravec_equal_windows first_channel [diagonal] 0%nat diagonal 5 5 1 2 2 (1, 1)).
  - reflexivity.
  - split; reflexivity.
  - unfold fits_int, C.INT_MAX. lia.
  - reflexivity.
  - lia.
  - unfold interior. lia.
  - apply elem_of_candidates. lia.
  - intros mr mc Hmr Hmc.
    assert (mr = -1 ∨ mr = 0 ∨ mr = 1) as [-> | [-> | ->]] by lia;
      assert (mc = -1 ∨ mc = 0 ∨ mc = 1) as [-> | [-> | ->]] by lia; reflexivity.
Defined.

(** X10.  A two-dimensional image of one finite intensity has no corner:
    for [b >= 1] and sizes within the [int] range ([rows], [cols],
    [rows * cols] and [2b] at most [INT_MAX]) the returned map is all
    zero. *)
Theorem moravec_uniform_image rgb2grey h image arr rows cols b :
  h !! image = Some arr → image2d arr rows cols → fits_int rows cols b →
  finite_image arr = true → uniform_image arr = true → 1 ≤ b →
  moravec rgb2grey image b h = Ok (length h) (h ++ [zeros_like arr]).
Proof.
  intros Hh Himg Hfit Hfin Huni Hb.
  destruct (moravec_returns rgb2grey h image arr rows cols b)
    as (res & -> & Hres & Hcells); [done.. | lia |].
  assert (image2d (zeros_like arr) rows cols) as Hz.
  { destruct Himg as [Hs Hl]. split; [done|]. simpl. by rewrite length_replicate. }
  do 3 f_equal. apply (image2d_ext _ _ rows cols); [done.. | destruct Hfit; lia |].
  intros r c Hr Hc. rewrite Hcells by done.
  rewrite (at2_lookup _ rows cols) by done.
  destruct (index_bounds rows cols r c Hr Hc).
  simpl. rewrite lookup_replicate_2 by (destruct Himg; lia).
  case_bool_decide as Hint; [|done]. f_equal. unfold interior in Hint.
  apply (response_equal_windows arr b r c (r - 1, c - 1)); [done | |].
  - by apply diagonal_candidates.
  - intros mr mc Hmr Hmc. simpl.
    apply (uniform_image_spec arr); [done | |];
      apply (px_elem_of arr rows cols); done || lia.
Qed.

Lemma moravec_uniform_image_witness :
  moravec first_channel 0%nat 1 [grey_wall] =
    Ok (length [grey_wall]) ([grey_wall] ++ [zeros_like grey_wall]).
Proof.
  apply (moravec_uniform_image first_channel [grey_wall] 0%nat grey_wall 5 5 1).
  - reflexivity.
  - split; reflexivity.
  - unfold fits_int, C.INT_MAX. lia.
  - reflexivity.
  - reflexivity.
  - lia.
Defined.

(** X11.  [rgb2grey] is called for an image of three dimensions only: on
    any other image the call does not depend on it. *)
Theorem moravec_grey_unused grey1 grey2 h image b :
  (∀ arr, h !! image = Some arr → ndim arr ≠ 3%nat) →
  moravec grey1 image b h = moravec grey2 image b h.
Proof.
  intros Hnd. unfold moravec, bind, as_int, deref, ret, raise.
  destruct (C.in_int b); [|done].
  destruct (h !! image) as [arr|] eqn:Hh; [|done].
  specialize (Hnd arr eq_refl). by rewrite bool_decide_eq_false_2 by done.
Qed.

Lemma moravec_grey_unused_witness :
  moravec first_channel 0%nat 1 [square] = moravec no_grey 0%nat 1 [square].
Proof.
  apply (moravec_grey_unused first_channel no_grey [square] 0%nat 1).
  intros arr [= <-]. unfold ndim. simpl. lia.
Defined.

(** X12.  Two calls in a row on the same image give two equal maps: the
    second call leaves the first map in place and adds its copy. *)
Theorem moravec_twice rgb2grey h image arr rows cols b :
  h !! image = Some arr → image2d arr rows cols → fits_int rows cols b → 0 ≤ b →
  ∃ res, moravec rgb2grey image b h = Ok (length h) (h ++ [res]) ∧
         moravec rgb2grey image b (h ++ [res]) =
           Ok (S (length h)) (h ++ [res; res]).
Proof.
  intros Hh Himg Hfit Hb.
  destruct (moravec_returns rgb2grey h image arr rows cols b)
    as (res & Hrun & Hres & Hcells); [done..|].
  exists res. split; [done|].
  destruct (moravec_returns rgb2grey (h ++ [res]) image arr rows cols b)
    as (res' & -> & Hres' & Hcells'); [|done..|].
  { rewrite lookup_app_l; [done|]. by eapply lookup_lt_Some. }
  rewrite length_app, Nat.add_1_r, <-app_assoc. do 3 f_equal. simpl. f_equal.
  apply (image2d_ext _ _ rows cols); [done.. | destruct Hfit; lia |].
  intros r c Hr Hc. by rewrite Hcells, Hcells'.
Qed.

Lemma moravec_twice_witness :
  ∃ res, moravec first_channel 0%nat 1 [square] = Ok (length [square]) ([square] ++ [res]) ∧
         moravec first_channel 0%nat 1 ([square] ++ [res]) =
           Ok (S (length [square])) ([square] ++ [res; res]).
Proof.
  apply (moravec_twice first_channel [square] 0%nat square 7 7 1).
  - reflexivity.
  - split; reflexivity.
  - unfold fits_int, C.INT_MAX. lia.
  - lia.
Defined.

(** X13.  On an image of three dimensions an exception of [rgb2grey]
    comes out of the call as it is; when [rgb2grey] returns, its result
    stays behind as a new object and the call raises [ValueError]. *)
Theorem moravec_3d_outcome rgb2grey h image arr d0 d1 d2 b :
  h !! image = Some arr → shape arr = [d0; d1; d2] →
  C.in_int d0 = true → C.in_int d1 = true → C.in_int b = true →
  moravec rgb2grey image b h =
    match rgb2grey arr with
    | inl e => Raise e h
    | inr grey => Raise ValueError (h ++ [grey])
    end.
Proof.
  intros Hh Hs H0 H1 Hb. pose proof (lookup_lt_Some _ _ _ Hh) as Hlt.
  unfold moravec, call_rgb2grey, acquire_2d, img_as_float, ascontiguousarray,
    as_int, shape_item, alloc, run_loops, deref, bind, ret, raise, ndim.
  rewrite Hb. simpl. rewrite Hh, Hs. simpl. rewrite H0, H1. simpl.
  rewrite Hh. destruct (rgb2grey arr) as [e|grey]; [done|].
  rewrite list_lookup_middle by done.
  case_bool_decide; [|done]. rewrite lookup_app_l, Hh by done. by rewrite Hs.
Qed.

Lemma moravec_3d_outcome_witness :
  moravec first_channel 0%nat 1 [rgb_pixel] =
    match first_channel rgb_pixel with
    | inl e => Raise e [rgb_pixel]
    | inr grey => Raise ValueError ([rgb_pixel] ++ [grey])
    end.
Proof.
  apply (moravec_3d_outcome first_channel [rgb_pixel] 0%nat rgb_pixel 1 1 3 1);
    reflexivity.
Defined.
